(** * AJT Japanese: furigana parsing, reading alignment and the pitch-accent
    database, embedded from the Python sources

  - [helpers/mingle_readings.py]: furigana micro-syntax parser and merger
  - [helpers/common_kana.py]: reading alignment of inflected forms
  - [database.py]: accent corpus parser, HTML renderer, database builder

  Python values are modelled as follows.  A [str] is a list of Unicode code
  points (indices and lengths count code points, as in Python).  A call that
  may raise returns a [result].  The insertion-ordered [dict] is an
  association list with unique keys. *)

From Stdlib Require Import String Ascii.
From Stdlib Require Import List ZArith NArith Bool Lia.
From Equations.Prop Require Import Equations Logic.
Import ListNotations.

Local Open Scope Z_scope.

(** The equations of the functions defined by well-founded recursion are
    derived without functional extensionality. *)
Unset Equations With Funext.

(* ====================================================================== *)
(** ** Python primitives used by the sources *)
(* ====================================================================== *)

Module Py.

(** A character is a Unicode code point; a string is a list of them. *)
Definition char := N.
Definition str := list char.

Definition ch (a : ascii) : char := N_of_ascii a.
Arguments ch a%_char.

(** UTF-8 decoding of the bytes of a literal, so that inputs can be written
    as they appear in the sources. *)
Fixpoint utf8_go (pending : nat) (acc : N) (bs : list N) : str :=
  match bs with
  | [] => []
  | b :: r =>
      match pending with
      | S k =>
          let acc' := (acc * 64 + b mod 64)%N in
          match k with
          | O => acc' :: utf8_go 0 0%N r
          | S _ => utf8_go k acc' r
          end
      | O =>
          if (b <? 128)%N then b :: utf8_go 0 0%N r
          else if (b <? 224)%N then utf8_go 1 (b mod 32)%N r
          else if (b <? 240)%N then utf8_go 2 (b mod 16)%N r
          else utf8_go 3 (b mod 8)%N r
      end
  end.

Definition u (s : string) : str :=
  utf8_go 0 0%N (map N_of_ascii (list_ascii_of_string s)).
Arguments u s%_string.

Definition len (s : str) : Z := Z.of_nat (length s).

Fixpoint eqb_str (a b : str) : bool :=
  match a, b with
  | [], [] => true
  | x :: a', y :: b' => N.eqb x y && eqb_str a' b'
  | _, _ => false
  end.

(** Exceptions the modelled code can raise. *)
Inductive exn := IndexError | AssertionError | TypeError | ValueError | AttributeError.

Inductive result (A : Type) : Type :=
| Returned (a : A)
| Raised (e : exn).
Arguments Returned {A} a.
Arguments Raised {A} e.

Definition bind {A B} (r : result A) (k : A -> result B) : result B :=
  match r with
  | Returned a => k a
  | Raised e => Raised e
  end.

(** [s[i]]: a negative index counts from the end; out of range raises. *)
Definition getitem (s : str) (i : Z) : result char :=
  let n := len s in
  let j := if i <? 0 then i + n else i in
  if (0 <=? j) && (j <? n) then
    match nth_error s (Z.to_nat j) with
    | Some c => Returned c
    | None => Raised IndexError
    end
  else Raised IndexError.

(** Slice bounds: negative bounds count from the end, then clamp. *)
Definition slice_bound (n i : Z) : Z :=
  if i <? 0 then Z.max (i + n) 0 else Z.min i n.

(** [s[lo:hi]], a missing bound given as [None]. *)
Definition slice (s : str) (lo hi : option Z) : str :=
  let n := len s in
  let a := match lo with Some i => slice_bound n i | None => 0 end in
  let b := match hi with Some i => slice_bound n i | None => n end in
  firstn (Z.to_nat (b - a)) (skipn (Z.to_nat a) s).

(** [str.isspace] on one code point (the whitespace of [split()] and [strip()]). *)
Definition isspace (c : char) : bool :=
  ((9 <=? c) && (c <=? 13) || (28 <=? c) && (c <=? 32)
   || (c =? 133) || (c =? 160) || (c =? 5760)
   || (8192 <=? c) && (c <=? 8202)
   || (c =? 8232) || (c =? 8233) || (c =? 8239) || (c =? 8287) || (c =? 12288))%N.

Fixpoint lstrip (s : str) : str :=
  match s with
  | c :: r => if isspace c then lstrip r else s
  | [] => []
  end.

Definition strip (s : str) : str := rev (lstrip (rev (lstrip s))).

(** [s.split()]: maximal runs of non-whitespace. *)
Fixpoint split_ws_go (cur : str) (s : str) : list str :=
  match s with
  | [] => match cur with [] => [] | _ => [rev cur] end
  | c :: r =>
      if isspace c
      then match cur with [] => split_ws_go [] r | _ => rev cur :: split_ws_go [] r end
      else split_ws_go (c :: cur) r
  end.

Definition split_ws (s : str) : list str := split_ws_go [] s.

(** [s.split(sep)] for a one-character separator: empty fields are kept. *)
Fixpoint split_on_go (sep : char) (cur : str) (s : str) : list str :=
  match s with
  | [] => [rev cur]
  | c :: r =>
      if N.eqb c sep then rev cur :: split_on_go sep [] r
      else split_on_go sep (c :: cur) r
  end.

Definition split_on (sep : char) (s : str) : list str := split_on_go sep [] s.

(** [sep.join(parts)]. *)
Fixpoint join (sep : str) (parts : list str) : str :=
  match parts with
  | [] => []
  | [p] => p
  | p :: rest => p ++ sep ++ join sep rest
  end.

Fixpoint startswith (p s : str) : bool :=
  match p, s with
  | [], _ => true
  | x :: p', y :: s' => N.eqb x y && startswith p' s'
  | _ :: _, [] => false
  end.

Definition endswith (p s : str) : bool := startswith (rev p) (rev s).

(** [s.replace(old, new)]: every non-overlapping occurrence, left to right.
    [skip] counts the characters of a replaced occurrence still to drop. *)
Fixpoint replace_go (old new : str) (skip : nat) (s : str) : str :=
  match s with
  | [] => []
  | c :: r =>
      match skip with
      | S k => replace_go old new k r
      | O =>
          if startswith old s
          then new ++ replace_go old new (Nat.pred (length old)) r
          else c :: replace_go old new 0 r
      end
  end.

Definition replace (old new s : str) : str :=
  match old with
  | [] => new ++ flat_map (fun c => c :: new) s
  | _ => replace_go old new 0 s
  end.

(** The insertion-ordered dictionary. *)
Definition dict (V : Type) := list (str * V).

Fixpoint dict_get {V} (d : dict V) (k : str) : option V :=
  match d with
  | [] => None
  | (k', v) :: r => if eqb_str k' k then Some v else dict_get r k
  end.

Definition dict_get_default {V} (d : dict V) (k : str) (dflt : V) : V :=
  match dict_get d k with Some v => v | None => dflt end.

(** [d[k] = v]: an existing key keeps its place, a new key goes last. *)
Fixpoint dict_set {V} (d : dict V) (k : str) (v : V) : dict V :=
  match d with
  | [] => [(k, v)]
  | (k', v') :: r => if eqb_str k' k then (k', v) :: r else (k', v') :: dict_set r k v
  end.

Definition dict_keys {V} (d : dict V) : list str := map fst d.

(** [dict.fromkeys(keys)]. *)
Definition dict_fromkeys (keys : list str) : dict unit :=
  fold_left (fun d k => dict_set d k tt) keys [].

End Py.

Import Py.

(* ====================================================================== *)
(** ** helpers/mingle_readings.py *)
(* ====================================================================== *)

Module MingleReadings.

Definition MULTIPLE_READING_SEP : str := u "・".

(** [class SplitFurigana(NamedTuple)]. *)
Record SplitFurigana := { head : str; reading : str; suffix : str }.

(** [Union[SplitFurigana, NoFurigana]]: what the parser returns. *)
Inductive Part :=
| Split (p : SplitFurigana)
| NoFurigana (text : str).

(** Attribute access on a part.  [NoFurigana] is a [str] subclass whose
    [head] property returns the string itself and whose [reading] is the same
    property object; it defines no [suffix]. *)
Definition part_head (p : Part) : str :=
  match p with Split s => head s | NoFurigana t => t end.

Definition part_reading (p : Part) : str :=
  match p with Split s => reading s | NoFurigana t => t end.

Definition part_suffix (p : Part) : result str :=
  match p with Split s => Returned (suffix s) | NoFurigana _ => Raised AttributeError end.

(** Truth value of a part: a named tuple of three fields is always true, a
    [str] is true when it is not empty. *)
Definition truthy (p : Part) : bool :=
  match p with Split _ => true | NoFurigana t => negb (eqb_str t []) end.

(** The [for i, c in enumerate(text)] loop of [find_head_reading_suffix]:
    returns [(furigana_start, furigana_end)]. *)
Fixpoint scan_brackets (i furigana_start : Z) (text : str) : Z * Z :=
  match text with
  | [] => (furigana_start, -1)
  | c :: rest =>
      let furigana_start := if N.eqb c (ch "[") then i else furigana_start in
      if N.eqb c (ch "]") then (furigana_start, i)
      else scan_brackets (i + 1) furigana_start rest
  end.

Definition find_head_reading_suffix (text : str) : Part :=
  let '(furigana_start, furigana_end) := scan_brackets 0 (-1) text in
  if (0 <? furigana_start) && (furigana_start <? furigana_end)
  then Split {| head := slice text None (Some furigana_start);
                reading := slice text (Some (furigana_start + 1)) (Some furigana_end);
                suffix := slice text (Some (furigana_end + 1)) None |}
  else NoFurigana text.

(** The generator [iter_split_parts], as the list of the parts it yields.
    Each round continues on the suffix of the part just found, which is
    shorter than the text. *)
Equations? iter_split_parts (text : str) : list Part by wf (length text) lt :=
iter_split_parts [] := [];
iter_split_parts (c :: rest) with inspect (find_head_reading_suffix (c :: rest)) := {
  | exist _ (NoFurigana t) _ =>
      if truthy (NoFurigana t) then [NoFurigana t] else [];
  | exist _ (Split p) e => Split p :: iter_split_parts (suffix p) }.
Proof.
  unfold find_head_reading_suffix in e.
  destruct (scan_brackets 0 (-1) (c :: rest)) as [s f].
  destruct ((0 <? s) && (s <? f)) eqn:G; [|discriminate].
  injection e as <-. cbn [suffix].
  apply andb_true_iff in G. destruct G as [G1 G2].
  apply Z.ltb_lt in G1, G2.
  unfold slice, slice_bound, len.
  rewrite length_firstn, length_skipn.
  destruct (f + 1 <? 0) eqn:K; [apply Z.ltb_lt in K; lia|].
  cbn [length]. lia.
Qed.

(** One round of the [for num, part in enumerate(...)] loop of
    [decompose_word]; the state is the contents of the three buffers. *)
Definition decompose_step (bufs : str * str * str) (num : nat) (part : Part)
  : str * str * str :=
  let '(h, r, s) := bufs in
  match part, num with
  | NoFurigana t, S _ => (h, r, s ++ t)
  | _, _ => (h ++ part_head part, r ++ part_reading part, s)
  end.

Fixpoint decompose_loop (num : nat) (parts : list Part) (bufs : str * str * str)
  : str * str * str :=
  match parts with
  | [] => bufs
  | part :: rest => decompose_loop (S num) rest (decompose_step bufs num part)
  end.

Definition decompose_word (text : str) : SplitFurigana :=
  let '(h, r, s) := decompose_loop 0 (iter_split_parts text) ([], [], []) in
  {| head := h; reading := r; suffix := s |}.

(** Does the text after an opening bracket continue as [[^\[\]]+?]] ? *)
Fixpoint closes_group (seen : bool) (s : str) : bool :=
  match s with
  | [] => false
  | c :: r =>
      if N.eqb c (ch "]") then seen
      else if N.eqb c (ch "[") then false
      else closes_group true r
  end.

(** [re.sub(r"\[[^\[\]]+?]", fixup, s)]: [inside] holds between the opening
    bracket of a match and its closing bracket; there a space is replaced. *)
Fixpoint tie_go (inside : bool) (s : str) : str :=
  match s with
  | [] => []
  | c :: r =>
      if inside then
        if N.eqb c (ch "]") then c :: tie_go false r
        else (if N.eqb c (ch " ") then MULTIPLE_READING_SEP else [c]) ++ tie_go true r
      else
        c :: tie_go (N.eqb c (ch "[") && closes_group false r) r
  end.

Definition tie_inside_furigana (s : str) : str := tie_go false s.

Definition whitespace_split (furigana_notation : str) : list str :=
  split_ws (tie_inside_furigana furigana_notation).

(** [class WordReading(NamedTuple)]; its second field is [reading] in the
    source. *)
Record WordReading := { word : str; reading_of_word : str }.

Definition word_parts (text : str) : str * str :=
  let splits := map decompose_word (whitespace_split text) in
  (concat (map (fun split => head split ++ suffix split) splits),
   concat (map (fun split => reading split ++ suffix split) splits)).

Definition word_reading (text : str) : WordReading :=
  let '(word, reading) := word_parts text in
  if negb (eqb_str reading []) && negb (eqb_str word reading)
  then {| word := word; reading_of_word := reading |}
  else {| word := text; reading_of_word := [] |}.

(** [zip(seq, seq[1:])]. *)
Definition pairs {A} (seq : list A) : list (A * A) := combine seq (tl seq).

(** [zip] over the unpacked rows, read through [first, *rest]: the columns
    of the rows, up to the shortest row.  Without rows there is no column. *)
Fixpoint zip_star {A} (rows : list (list A)) : list (A * list A) :=
  match rows with
  | [] => []
  | row :: others =>
      match others with
      | [] => map (fun x => (x, [])) row
      | _ => map (fun xc => (fst xc, fst (snd xc) :: snd (snd xc)))
                 (combine row (zip_star others))
      end
  end.

(** The body of the [for first, *rest in zip(...)] loop: the pack that is
    appended. *)
Definition mingle_pack (sep : str) (column : str * list str) : str :=
  let first := decompose_word (fst column) in
  let words_furigana :=
    join sep (dict_keys (dict_fromkeys
      (map reading (first :: map decompose_word (snd column))))) in
  if negb (eqb_str words_furigana (head first))
  then u " " ++ head first ++ u "[" ++ words_furigana ++ u "]" ++ suffix first
  else head first.

Definition DEFAULT_SEP : str := u ", ".

Definition mingle_readings (sep : str) (words_furigana : list str) : result str :=
  if negb (1 <? Z.of_nat (length words_furigana)) then Raised AssertionError
  else
    let split := map whitespace_split words_furigana in
    if existsb (fun xy => negb (Nat.eqb (length (fst xy)) (length (snd xy)))) (pairs split)
    then match words_furigana with
         | w :: _ => Returned w
         | [] => Raised IndexError
         end
    else Returned (concat (map (mingle_pack sep) (zip_star split))).

(** The character class of [strip_non_jp_furigana]: hiragana from U+3041 to
    U+3096, katakana from U+30A1 to U+30FA, half-width katakana from U+FF67
    to U+FF9D. *)
Definition is_kana (c : char) : bool :=
  ((12353 <=? c) && (c <=? 12438)
   || (12449 <=? c) && (c <=? 12538)
   || (65383 <=? c) && (c <=? 65437))%N.

(** What the greedy class with [+] and the closing bracket match after an
    opening bracket: the class takes the whole run of characters outside the
    kana class and gives back up to the last closing bracket of the run that
    has at least one character before it.  [consumed] counts the characters
    of the run passed so far; the result is the number of characters of the
    match after the opening bracket. *)
Fixpoint non_jp_group (consumed : nat) (best : option nat) (s : str) : option nat :=
  match s with
  | [] => best
  | c :: r =>
      if is_kana c then best
      else non_jp_group (S consumed)
             (if N.eqb c (ch "]") && negb (Nat.eqb consumed 0)
              then Some (S consumed) else best)
             r
  end.

(** [re.sub] with the empty replacement: [skip] counts the characters of the
    match still to drop. *)
Fixpoint strip_go (skip : nat) (s : str) : str :=
  match s with
  | [] => []
  | c :: r =>
      match skip with
      | S k => strip_go k r
      | O =>
          if N.eqb c (ch "[") then
            match non_jp_group 0 None r with
            | Some n => strip_go n r
            | None => c :: strip_go 0 r
            end
          else c :: strip_go 0 r
      end
  end.

Definition strip_non_jp_furigana (expr : str) : str := strip_go 0 expr.

End MingleReadings.

(* ====================================================================== *)
(** ** helpers/common_kana.py *)
(* ====================================================================== *)

Module CommonKana.

(** Modelled from the spec: the kana-normalization oracle, imported as [_]
    from [mecab_controller] (outside this repository): a pure function that
    folds kana to one script.  This instance maps the hiragana block and the
    hiragana iteration marks to katakana and leaves every other character as
    it is.  The general results below hold for any oracle. *)
Definition to_katakana_char (c : char) : char :=
  if ((12353 <=? c) && (c <=? 12438) || (12445 <=? c) && (c <=? 12446))%N
  then (c + 96)%N else c.

Definition to_katakana (s : str) : str := map to_katakana_char s.

Section AdjustReading.

Variable normalize : str -> str.

(** The [while] loop of [adjust_reading].  Each round reads
    [headword[idx_headword - 1]] and [headword_reading[idx_reading - 1]];
    [trace] records the two subscripts of every round.  The result is the
    trace and either the cursors at the mismatch or the exception. *)
Equations? walk (headword headword_reading : str) (trace : list (Z * Z))
  (idx_headword idx_reading : Z) : list (Z * Z) * result (Z * Z)
  by wf (Z.to_nat (idx_headword + len headword + 1)) lt :=
walk headword headword_reading trace idx_headword idx_reading
  with inspect (getitem headword (idx_headword - 1)) := {
  | exist _ (Raised e) _ =>
      (trace ++ [(idx_headword - 1, idx_reading - 1)], Raised e);
  | exist _ (Returned a) eqa with getitem headword_reading (idx_reading - 1) := {
    | Raised e => (trace ++ [(idx_headword - 1, idx_reading - 1)], Raised e);
    | Returned b with eqb_str (normalize [a]) (normalize [b]) := {
      | true => walk headword headword_reading
                     (trace ++ [(idx_headword - 1, idx_reading - 1)])
                     (idx_headword - 1) (idx_reading - 1);
      | false => (trace ++ [(idx_headword - 1, idx_reading - 1)],
                  Returned (idx_headword, idx_reading)) } } }.
Proof.
  unfold getitem in eqa.
  destruct (idx_headword - 1 <? 0) eqn:N1;
    destruct (_ && _) eqn:B in eqa; try discriminate;
    apply andb_true_iff in B; destruct B as [B1 B2];
    apply Z.leb_le in B1; apply Z.ltb_lt in B2; lia.
Qed.

Definition adjust_reading (raw_word headword headword_reading : str) : result str :=
  if eqb_str (normalize headword) (normalize headword_reading) then Returned raw_word
  else if eqb_str (normalize headword) (normalize raw_word) then Returned headword_reading
  else
    match snd (walk headword headword_reading [] (len headword) (len headword_reading)) with
    | Returned (idx_headword, idx_reading) =>
        Returned (slice headword_reading None (Some idx_reading)
                  ++ slice raw_word (Some idx_headword) None)
    | Raised e => Raised e
    end.

End AdjustReading.

End CommonKana.

(* ====================================================================== *)
(** ** database.py *)
(* ====================================================================== *)

Module Database.

(** [AccentEntry], a named tuple of nineteen fields. *)
Record AccentEntry := {
  NID : str; ID : str; WAVname : str; K_FLD : str; ACT : str;
  katakana_reading : str; nhk : str; kanjiexpr : str; NHKexpr : str; numberchars : str;
  devoiced_pos : str; nasalsoundpos : str; majiri : str; kaisi : str; KWAV : str;
  katakana_reading_alt : str; akusentosuu : str; bunshou : str; accent : str }.

(** [AccentEntry] applied to the unpacked fields: any number of arguments
    other than nineteen is a [TypeError]. *)
Definition AccentEntry_of_fields (fields : list str) : result AccentEntry :=
  match fields with
  | [f1; f2; f3; f4; f5; f6; f7; f8; f9; f10; f11; f12; f13; f14; f15; f16; f17; f18; f19] =>
      Returned {| NID := f1; ID := f2; WAVname := f3; K_FLD := f4; ACT := f5;
                  katakana_reading := f6; nhk := f7; kanjiexpr := f8; NHKexpr := f9;
                  numberchars := f10; devoiced_pos := f11; nasalsoundpos := f12;
                  majiri := f13; kaisi := f14; KWAV := f15; katakana_reading_alt := f16;
                  akusentosuu := f17; bunshou := f18; accent := f19 |}
  | _ => Raised TypeError
  end.

Definition fields_of_AccentEntry (e : AccentEntry) : list str :=
  [NID e; ID e; WAVname e; K_FLD e; ACT e; katakana_reading e; nhk e; kanjiexpr e;
   NHKexpr e; numberchars e; devoiced_pos e; nasalsoundpos e; majiri e; kaisi e;
   KWAV e; katakana_reading_alt e; akusentosuu e; bunshou e; accent e].

Definition NEWLINE : char := 10%N.

(** The lazy [.*?] followed by [stop]: the shortest run of characters other
    than a newline up to the first [stop], returned with [stop] and with the
    rest of the text. *)
Fixpoint lazy_until (stop : char) (s : str) : option (str * str) :=
  match s with
  | [] => None
  | c :: r =>
      if N.eqb c stop then Some ([c], r)
      else if N.eqb c NEWLINE then None
      else match lazy_until stop r with
           | Some (m, rest) => Some (c :: m, rest)
           | None => None
           end
  end.

(** What [.*?,.*?] and the closing bracket match after an opening bracket. *)
Definition group_body (close : char) (s : str) : option str :=
  match lazy_until (ch ",") s with
  | Some (a, r) =>
      match lazy_until close r with
      | Some (b, _) => Some (a ++ b)
      | None => None
      end
  | None => None
  end.

(** [re.findall] for the patterns [{.*?,.*?}] and [\(.*?,.*?\)]: the matches
    from left to right, without overlap.  [skip] counts the characters of the
    last match still to pass over. *)
Fixpoint findall_group (open close : char) (skip : nat) (s : str) : list str :=
  match s with
  | [] => []
  | c :: r =>
      match skip with
      | S k => findall_group open close k r
      | O =>
          if N.eqb c open then
            match group_body close r with
            | Some body => (c :: body) :: findall_group open close (length body) r
            | None => findall_group open close 0 r
            end
          else findall_group open close 0 r
      end
  end.

Definition escape_sub_entries (csv_line : str) : str :=
  let sub_entries :=
    findall_group (ch "{") (ch "}") 0 csv_line
    ++ findall_group (ch "(") (ch ")") 0 csv_line in
  fold_left (fun line s => replace s (replace (u ",") (u ";") s) line) sub_entries csv_line.

Definition make_accent_entry (csv_line : str) : result AccentEntry :=
  let csv_line := strip csv_line in
  let csv_line := escape_sub_entries csv_line in
  AccentEntry_of_fields (split_on (ch ",") csv_line).

(** The pieces appended to [result_str] by [format_entry], one per [+=]. *)
Inductive piece :=
| OverlineOpen
| OverlineClose
| Mora (c : char)
| Devoiced (c : char)
| NasalMark
| CloseDownstep.

Definition DQUOTE : str := [34%N].

Definition OVERLINE_OPEN : str := u "<span class=" ++ DQUOTE ++ u "overline" ++ DQUOTE ++ u ">".
Definition SPAN_CLOSE : str := u "</span>".
Definition NOPRON_OPEN : str := u "<span class=" ++ DQUOTE ++ u "nopron" ++ DQUOTE ++ u ">".
Definition NASAL : str :=
  u "<span class=" ++ DQUOTE ++ u "nasal" ++ DQUOTE ++ u ">&#176;</span>".
Definition DOWNSTEP : str := u "</span>&#42780;".

Definition render (p : piece) : str :=
  match p with
  | OverlineOpen => OVERLINE_OPEN
  | OverlineClose => SPAN_CLOSE
  | Mora c => [c]
  | Devoiced c => NOPRON_OPEN ++ [c] ++ SPAN_CLOSE
  | NasalMark => NASAL
  | CloseDownstep => DOWNSTEP
  end.

Fixpoint mapM {A B} (f : A -> result B) (l : list A) : result (list B) :=
  match l with
  | [] => Returned []
  | x :: r => bind (f x) (fun y => bind (mapM f r) (fun ys => Returned (y :: ys)))
  end.

Section WithInt.

(** Python's built-in [int] on a string. *)
Variable int : str -> result Z.

Definition format_nasal_or_devoiced_positions (expr : str) : result (list Z) :=
  let '(expr, result) :=
    if endswith (u "10") expr then (slice expr None (Some (-2)), [10]) else (expr, []) in
  bind (mapM int (filter (fun pos => negb (eqb_str pos [])) (split_on (ch "0") expr)))
       (fun positions => Returned (result ++ positions)).

Definition Z_in (x : Z) (l : list Z) : bool := existsb (Z.eqb x) l.

(** One round of the loop of [format_entry] on mora [idx] with accent digit
    [acc]: the pieces appended and the new [overline_flag]. *)
Definition format_step (nasal devoiced : list Z) (overline_flag : bool)
  (idx : Z) (c : char) (acc : Z) : list piece * bool :=
  let '(out1, flag1) :=
    if negb overline_flag && (0 <? acc) then ([OverlineOpen], true) else ([], overline_flag) in
  let '(out2, flag2) :=
    if flag1 && (acc =? 0) then ([OverlineClose], false) else ([], flag1) in
  let out3 := if Z_in (idx + 1) devoiced then [Devoiced c] else [Mora c] in
  let out4 := if Z_in (idx + 1) nasal then [NasalMark] else [] in
  let '(out5, flag5) :=
    if acc =? 2 then ([CloseDownstep], false) else ([], flag2) in
  (out1 ++ out2 ++ out3 ++ out4 ++ out5, flag5).

(** The loop over [range(len(kana))]; [kana_rest] are the morae from [idx]
    on.  It ends with the closing of an overline that is still open. *)
Fixpoint format_loop (nasal devoiced : list Z) (acc_pattern : str)
  (overline_flag : bool) (idx : Z) (kana_rest : str) : result (list piece) :=
  match kana_rest with
  | [] => Returned (if overline_flag then [OverlineClose] else [])
  | c :: rest =>
      bind (getitem acc_pattern idx) (fun d =>
      bind (int [d]) (fun acc =>
      let '(out, flag) := format_step nasal devoiced overline_flag idx c acc in
      bind (format_loop nasal devoiced acc_pattern flag (idx + 1) rest) (fun more =>
      Returned (out ++ more))))
  end.

Definition format_pieces (e : AccentEntry) : result (list piece) :=
  let kana := katakana_reading_alt e in
  let acc_pattern :=
    repeat (ch "0") (Z.to_nat (len kana - len (accent e))) ++ accent e in
  bind (format_nasal_or_devoiced_positions (nasalsoundpos e)) (fun nasal =>
  bind (format_nasal_or_devoiced_positions (devoiced_pos e)) (fun devoiced =>
  format_loop nasal devoiced acc_pattern false 0 kana)).

Definition format_entry (e : AccentEntry) : result str :=
  bind (format_pieces e) (fun pieces => Returned (concat (map render pieces))).

Definition eqb_pair (a b : str * str) : bool :=
  eqb_str (fst a) (fst b) && eqb_str (snd a) (snd b).

(** [temp_dict[key] = temp_dict.get(key, [])] and the guarded [append]. *)
Definition register {V} (eqb : V -> V -> bool) (d : dict (list V)) (key : str) (value : V)
  : dict (list V) :=
  let l := dict_get_default d key [] in
  dict_set d key (if existsb (eqb value) l then l else l ++ [value]).

(** The loop over the entries of [build_database]. *)
Fixpoint build_loop (temp_dict : dict (list (str * str))) (entries : list AccentEntry)
  : result (dict (list (str * str))) :=
  match entries with
  | [] => Returned temp_dict
  | entry :: rest =>
      bind (format_entry entry) (fun html =>
      let value := (katakana_reading entry, html) in
      build_loop (fold_left (fun d key => register eqb_pair d key value)
                            [nhk entry; kanjiexpr entry] temp_dict) rest)
  end.

Definition build_dict (corpus : list str) : result (dict (list (str * str))) :=
  bind (mapM make_accent_entry corpus) (fun entries => build_loop [] entries).

(** The rows written, as triples and as text. *)
Definition rows (d : dict (list (str * str))) : list (str * str * str) :=
  flat_map (fun kv => map (fun v => (fst kv, fst v, snd v)) (snd kv)) d.

Definition TAB : str := [9%N].

Definition write_row (row : str * str * str) : str :=
  fst (fst row) ++ TAB ++ snd (fst row) ++ TAB ++ snd row ++ [NEWLINE].

(** [build_database]: from the lines of the corpus file to the text written
    to [dest_path]. *)
Definition build_database (corpus : list str) : result str :=
  bind (build_dict corpus) (fun d => Returned (concat (map write_row (rows d)))).

End WithInt.

(** [word, kana, pitch_html = line.strip().split('\t')]. *)
Definition unpack3 (fields : list str) : result (str * str * str) :=
  match fields with
  | [a; b; c] => Returned (a, b, c)
  | _ => Raised ValueError
  end.

Fixpoint read_loop (acc_dict : dict (list str)) (lines : list str) : result (dict (list str)) :=
  match lines with
  | [] => Returned acc_dict
  | line :: rest =>
      bind (unpack3 (split_on (ch "009") (strip line))) (fun wkp =>
      let '(word, kana, pitch_html) := wkp in
      read_loop (fold_left (fun d key => register eqb_str d key pitch_html)
                           [word; kana] acc_dict) rest)
  end.

(** [read_derivative], from the lines of the derivative file. *)
Definition read_derivative (lines : list str) : result (dict (list str)) :=
  read_loop [] lines.

(** Python's built-in [int] on a string, in base 10, as CPython 3.11 has
    it.  Whitespace around the number is skipped, a sign may come first, and
    the digits, of any decimal script, may be separated by single
    underscores.  Anything else raises [ValueError], and so does a number of
    more than [int_max_str_digits] digits. *)

(** The code points of the digit zero of the decimal scripts (Unicode 14.0);
    the nine code points that follow each are its digits 1 to 9. *)
Definition decimal_zeros : list N :=
  [   48; 1632; 1776; 1984; 2406; 2534; 2662; 2790;
   2918; 3046; 3174; 3302; 3430; 3558; 3664; 3792;
   3872; 4160; 4240; 6112; 6160; 6470; 6608; 6784;
   6800; 6992; 7088; 7232; 7248; 42528; 43216; 43264;
   43472; 43504; 43600; 44016; 65296; 66720; 68912; 69734;
   69872; 69942; 70096; 70384; 70736; 70864; 71248; 71360;
   71472; 71904; 72016; 72784; 73040; 73120; 92768; 92864;
   93008; 120782; 120792; 120802; 120812; 120822; 123200; 123632;
   125264; 130032]%N.

Definition to_decimal (c : char) : option Z :=
  match find (fun z => (z <=? c) && (c <=? z + 9))%N decimal_zeros with
  | Some z => Some (Z.of_N (c - z))
  | None => None
  end.

(** The whitespace that [int] skips: the blanks of C within ASCII, and the
    whitespace of [str.isspace] beyond ASCII. *)
Definition int_space (c : char) : bool :=
  ((9 <=? c) && (c <=? 13) || (c =? 32) || (127 <=? c) && isspace c)%N.

(** The default of [sys.int_max_str_digits]. *)
Definition int_max_str_digits : Z := 4300.

(** The digits and what follows them: [acc] is the value so far, [count]
    the number of digits read, [after_digit] tells whether the last
    character read was a digit. *)
Fixpoint int_digits (acc count : Z) (after_digit : bool) (s : str) : result Z :=
  match s with
  | [] =>
      if after_digit && (count <=? int_max_str_digits)
      then Returned acc else Raised ValueError
  | c :: r =>
      match to_decimal c with
      | Some d => int_digits (10 * acc + d) (count + 1) true r
      | None =>
          if N.eqb c (ch "_") then
            if after_digit then int_digits acc count false r else Raised ValueError
          else if after_digit && forallb int_space s && (count <=? int_max_str_digits)
          then Returned acc else Raised ValueError
      end
  end.

Fixpoint int_skip (s : str) : str :=
  match s with
  | c :: r => if int_space c then int_skip r else s
  | [] => []
  end.

Definition int_str (s : str) : result Z :=
  match int_skip s with
  | [] => Raised ValueError
  | c :: r =>
      if N.eqb c (ch "+") then int_digits 0 0 false r
      else if N.eqb c (ch "-") then bind (int_digits 0 0 false r) (fun n => Returned (- n))
      else int_digits 0 0 false (c :: r)
  end.

End Database.

(* ====================================================================== *)
(** ** Notions used to state the properties *)
(* ====================================================================== *)

Module Props.

Import MingleReadings CommonKana Database.

(** The annotated token [head[reading]suffix]. *)
Definition annotate (head reading suffix : str) : str :=
  head ++ u "[" ++ reading ++ u "]" ++ suffix.

(** Malformed bracket structure: no opening bracket, no closing bracket, or
    a closing bracket with no opening bracket before it. *)
Definition malformed (text : str) : Prop :=
  ~ In (ch "[") text
  \/ ~ In (ch "]") text
  \/ exists pre post, text = pre ++ ch "]" :: post /\ ~ In (ch "[") pre.

(** Order-preserving deduplication: each element stays at its first
    occurrence and its later occurrences are dropped. *)
Fixpoint dedup {A} (eqb : A -> A -> bool) (l : list A) : list A :=
  match l with
  | [] => []
  | x :: r => x :: filter (fun y => negb (eqb x y)) (dedup eqb r)
  end.

(** The tokens at position [p] of every notation. *)
Definition column (p : nat) (split : list (list str)) : list str :=
  map (fun tokens => nth p tokens []) split.

(** The output for one token position, from the aligned tokens: the readings
    of the decomposed tokens are deduplicated in order and joined; the head
    and suffix are those of the first notation. *)
Definition mingled_token (sep : str) (tokens : list str) : str :=
  let first := decompose_word (hd [] tokens) in
  let combined := join sep (dedup eqb_str (map (fun t => reading (decompose_word t)) tokens)) in
  if eqb_str combined (head first) then head first
  else u " " ++ head first ++ u "[" ++ combined ++ u "]" ++ suffix first.

Section TrailingRun.

Variable normalize : str -> str.

(** The characters at distance [j] from the ends of the headword and of its
    reading, read with Python subscripts, exist and agree once normalized. *)
Definition matches_at (headword headword_reading : str) (j : Z) : Prop :=
  exists a b,
    getitem headword (len headword - 1 - j) = Returned a
    /\ getitem headword_reading (len headword_reading - 1 - j) = Returned b
    /\ normalize [a] = normalize [b].

(** They exist and disagree. *)
Definition differs_at (headword headword_reading : str) (j : Z) : Prop :=
  exists a b,
    getitem headword (len headword - 1 - j) = Returned a
    /\ getitem headword_reading (len headword_reading - 1 - j) = Returned b
    /\ normalize [a] <> normalize [b].

(** The shared trailing run has [k] characters: the [k] last pairs agree and
    the next pair disagrees. *)
Definition trailing_run (headword headword_reading : str) (k : Z) : Prop :=
  0 <= k
  /\ (forall j, 0 <= j < k -> matches_at headword headword_reading j)
  /\ differs_at headword headword_reading k.

End TrailingRun.

(** Both subscripts of a round of the walk lie inside their strings. *)
Definition in_bounds (headword headword_reading : str) (subscripts : Z * Z) : Prop :=
  0 <= fst subscripts < len headword /\ 0 <= snd subscripts < len headword_reading.








(** A corpus line with a nasal first mora, a devoiced second mora and the
    accent digits of a flat word. *)
Definition sample_line : str :=
  u "100,200,gakusei.wav,1,1,ガクセイ,ガクセイ,学生,学生,4,2,1,0,0,gakusei.wav,ガクセイ,1,1,0111".


(** The registrations of a build, in order: each entry registers its value
    under its [nhk] key and then under its [kanjiexpr] key. *)
Definition build_registrations (entries : list AccentEntry) (htmls : list str)
  : list (str * (str * str)) :=
  flat_map (fun eh =>
              let value := (katakana_reading (fst eh), snd eh) in
              [(nhk (fst eh), value); (kanjiexpr (fst eh), value)])
           (combine entries htmls).

(** The registrations of a load, in order: each row registers its html
    under its word and then under its kana. *)
Definition read_registrations (file_rows : list (str * str * str)) : list (str * str) :=
  flat_map (fun row => [(fst (fst row), snd row); (snd (fst row), snd row)]) file_rows.

(** What was registered under a key, in order, repetitions included. *)
Definition registered_under {V} (key : str) (regs : list (str * V)) : list V :=
  map snd (filter (fun r => eqb_str (fst r) key) regs).

(** All registrations, one after the other. *)
Definition register_all {V} (eqb : V -> V -> bool) (regs : list (str * V))
  (d : dict (list V)) : dict (list V) :=
  fold_left (fun d r => register eqb d (fst r) (snd r)) regs d.

(** The rows of a derivative file. *)
Definition parse_rows (lines : list str) : result (list (str * str * str)) :=
  mapM (fun line => unpack3 (split_on (ch "009") (strip line))) lines.

(** The distinct (katakana, html) pairs that the rows of a file hold for a
    word, in order. *)
Definition variant_pairs (key : str) (file_rows : list (str * str * str))
  : list (str * str) :=
  dedup eqb_pair
    (map (fun row => (snd (fst row), snd row))
         (filter (fun row => eqb_str (fst (fst row)) key) file_rows)).

(** A corpus of three lines, the second repeating the first. *)
Definition sample_corpus : list str :=
  [sample_line ++ [NEWLINE];
   sample_line ++ [NEWLINE];
   u "101,201,ame.wav,1,1,アメ,アメ,雨,雨,2,0,0,0,0,ame.wav,アメ,1,1,20" ++ [NEWLINE]].

(** A derivative file in which one word has two katakana with the same
    html. *)
Definition sample_rows : list (str * str * str) :=
  [(u "k", u "A", u "h"); (u "k", u "B", u "h")].

Definition sample_derivative : list str := map write_row sample_rows.

(** Nineteen fields, the second a parenthesis group that holds a brace
    group; and the same line with the commas of the group already replaced. *)
Definition nested_group_line : str :=
  u "0,(x,{a,b}),2,3,4,5,6,7,8,9,10,11,12,13,14,15,16,17,18".

Definition nested_group_line_escaped : str :=
  u "0,(x;{a;b}),2,3,4,5,6,7,8,9,10,11,12,13,14,15,16,17,18".

(** Nineteen fields, the first a brace group without a comma, the third a
    brace group with one. *)
Definition two_groups_line : str :=
  u "{a},1,{c,d},3,4,5,6,7,8,9,10,11,12,13,14,15,16,17,18".

(** Nineteen fields, the second a parenthesis group with a comma. *)
Definition simple_group_line : str :=
  u "0,(a,b),2,3,4,5,6,7,8,9,10,11,12,13,14,15,16,17,18".

(** The morae that a sequence of pieces shows, in order. *)
Definition morae (pieces : list piece) : str :=
  flat_map (fun p => match p with Mora c | Devoiced c => [c] | _ => [] end) pieces.

(** An entry with another accent field. *)
Definition with_accent (e : AccentEntry) (digits : str) : AccentEntry :=
  {| NID := NID e; ID := ID e; WAVname := WAVname e; K_FLD := K_FLD e; ACT := ACT e;
     katakana_reading := katakana_reading e; nhk := nhk e; kanjiexpr := kanjiexpr e;
     NHKexpr := NHKexpr e; numberchars := numberchars e; devoiced_pos := devoiced_pos e;
     nasalsoundpos := nasalsoundpos e; majiri := majiri e; kaisi := kaisi e;
     KWAV := KWAV e; katakana_reading_alt := katakana_reading_alt e;
     akusentosuu := akusentosuu e; bunshou := bunshou e; accent := digits |}.

(** How often a character occurs in a string. *)
Definition occurrences (c : char) (s : str) : nat := length (filter (N.eqb c) s).

(** A row that can be written and read back: no field holds a TAB, the key
    begins and the html ends with a character that is not whitespace. *)
Definition loadable (row : str * str * str) : Prop :=
  let '(key, kana, html) := row in
  ~ In (ch "009") key /\ ~ In (ch "009") kana /\ ~ In (ch "009") html
  /\ (exists c, hd_error key = Some c /\ isspace c = false)
  /\ (exists c, hd_error (rev html) = Some c /\ isspace c = false).

(** Every opening bracket of the text is directly followed by a kana. *)
Fixpoint kana_furigana_only (s : str) : bool :=
  match s with
  | [] => true
  | c :: r =>
      (if N.eqb c (ch "[")
       then match r with k :: _ => is_kana k | [] => false end
       else true)
      && kana_furigana_only r
  end.

End Props.

Import MingleReadings CommonKana Database Props.

(* ====================================================================== *)
(** ** Strings and slices *)
(* ====================================================================== *)

Lemma eqb_str_eq (a b : str) : eqb_str a b = true <-> a = b.
Proof.
  revert b; induction a as [|x a IH]; intros [|y b]; cbn; try easy.
  rewrite andb_true_iff, N.eqb_eq, IH. split.
  - intros [-> ->]; reflexivity.
  - intros E; injection E; auto.
Qed.

Lemma eqb_str_refl (a : str) : eqb_str a a = true.
Proof. apply eqb_str_eq; reflexivity. Qed.

Lemma eqb_str_neq (a b : str) : eqb_str a b = false <-> a <> b.
Proof.
  rewrite <- eqb_str_eq. destruct (eqb_str a b); split; congruence.
Qed.

Lemma len_app (a b : str) : len (a ++ b) = len a + len b.
Proof. unfold len. rewrite length_app. lia. Qed.

Lemma len_cons (c : char) (a : str) : len (c :: a) = 1 + len a.
Proof. unfold len. cbn [length]. lia. Qed.

Lemma len_nonneg (a : str) : 0 <= len a.
Proof. unfold len. lia. Qed.

(** The middle of a concatenation, as a slice between two positions. *)
Lemma slice_middle (p m q : str) :
  slice (p ++ m ++ q) (Some (len p)) (Some (len p + len m)) = m.
Proof.
  unfold slice, slice_bound.
  pose proof (len_nonneg p); pose proof (len_nonneg m); pose proof (len_nonneg q).
  rewrite !len_app.
  destruct (len p <? 0) eqn:E1; [apply Z.ltb_lt in E1; lia|].
  destruct (len p + len m <? 0) eqn:E2; [apply Z.ltb_lt in E2; lia|].
  rewrite !Z.min_l by lia.
  replace (Z.to_nat (len p)) with (length p) by (unfold len; lia).
  replace (Z.to_nat (len p + len m - len p)) with (length m) by (unfold len; lia).
  rewrite skipn_app, skipn_all, Nat.sub_diag. cbn [skipn app].
  rewrite firstn_app, firstn_all, Nat.sub_diag. cbn [firstn]. apply app_nil_r.
Qed.

Lemma slice_prefix (p q : str) : slice (p ++ q) None (Some (len p)) = p.
Proof.
  unfold slice, slice_bound.
  pose proof (len_nonneg p); pose proof (len_nonneg q).
  rewrite len_app.
  destruct (len p <? 0) eqn:E1; [apply Z.ltb_lt in E1; lia|].
  rewrite Z.min_l by lia. cbn [Z.to_nat skipn].
  replace (Z.to_nat (len p - 0)) with (length p) by (unfold len; lia).
  rewrite firstn_app, firstn_all, Nat.sub_diag. cbn [firstn]. apply app_nil_r.
Qed.

Lemma slice_suffix (p q : str) : slice (p ++ q) (Some (len p)) None = q.
Proof.
  unfold slice, slice_bound.
  pose proof (len_nonneg p); pose proof (len_nonneg q).
  rewrite len_app.
  destruct (len p <? 0) eqn:E1; [apply Z.ltb_lt in E1; lia|].
  rewrite Z.min_l by lia.
  replace (Z.to_nat (len p)) with (length p) by (unfold len; lia).
  replace (Z.to_nat (len p + len q - len p)) with (length q) by (unfold len; lia).
  rewrite skipn_app, skipn_all, Nat.sub_diag. cbn [skipn app].
  apply firstn_all.
Qed.

(* ====================================================================== *)
(** ** The furigana parser *)
(* ====================================================================== *)

Section ScanBrackets.

(** Over a stretch without brackets the scan only advances. *)
Lemma scan_plain (pre rest : str) (i st : Z) :
  ~ In (ch "[") pre -> ~ In (ch "]") pre ->
  scan_brackets i st (pre ++ rest) = scan_brackets (i + len pre) st rest.
Proof.
  revert i; induction pre as [|c pre IH]; intros i Ho Hc.
  - cbn [app]. f_equal. unfold len; cbn; lia.
  - cbn [app scan_brackets].
    destruct (N.eqb c (ch "[")) eqn:E1.
    { apply N.eqb_eq in E1. exfalso; apply Ho; left; auto. }
    destruct (N.eqb c (ch "]")) eqn:E2.
    { apply N.eqb_eq in E2. exfalso; apply Hc; left; auto. }
    rewrite IH by (intros K; (apply Ho + apply Hc); right; exact K).
    f_equal. rewrite len_cons. lia.
Qed.

(** Over a stretch without a closing bracket the scan goes on, with some
    start. *)
Lemma scan_open_only (pre rest : str) (i st : Z) :
  ~ In (ch "]") pre ->
  exists st', scan_brackets i st (pre ++ rest) = scan_brackets (i + len pre) st' rest.
Proof.
  revert i st; induction pre as [|c pre IH]; intros i st Hc.
  - exists st. cbn [app]. f_equal. unfold len; cbn; lia.
  - cbn [app scan_brackets].
    destruct (N.eqb c (ch "]")) eqn:E2.
    { apply N.eqb_eq in E2. exfalso; apply Hc; left; auto. }
    destruct (IH (i + 1) (if N.eqb c (ch "[") then i else st)) as [st' E].
    { intros K; apply Hc; right; exact K. }
    exists st'. rewrite E. f_equal. rewrite len_cons. lia.
Qed.

(** Without an opening bracket before the first closing one, the start is
    the initial one. *)
Lemma scan_no_open (pre post : str) (i st : Z) :
  ~ In (ch "[") pre ->
  fst (scan_brackets i st (pre ++ ch "]" :: post)) = st.
Proof.
  revert i; induction pre as [|c pre IH]; intros i Ho.
  - reflexivity.
  - cbn [app scan_brackets].
    destruct (N.eqb c (ch "[")) eqn:E1.
    { apply N.eqb_eq in E1. exfalso; apply Ho; left; auto. }
    destruct (N.eqb c (ch "]")); [reflexivity|].
    apply IH. intros K; apply Ho; right; exact K.
Qed.

Lemma scan_no_open_at_all (text : str) (i st : Z) :
  ~ In (ch "[") text -> fst (scan_brackets i st text) = st.
Proof.
  revert i; induction text as [|c text IH]; intros i Ho.
  - reflexivity.
  - cbn [scan_brackets].
    destruct (N.eqb c (ch "[")) eqn:E1.
    { apply N.eqb_eq in E1. exfalso; apply Ho; left; auto. }
    destruct (N.eqb c (ch "]")); [reflexivity|].
    apply IH. intros K; apply Ho; right; exact K.
Qed.

Lemma scan_no_close (text : str) (i st : Z) :
  ~ In (ch "]") text -> snd (scan_brackets i st text) = -1.
Proof.
  revert i st; induction text as [|c text IH]; intros i st Hc.
  - reflexivity.
  - cbn [scan_brackets].
    destruct (N.eqb c (ch "]")) eqn:E2.
    { apply N.eqb_eq in E2. exfalso; apply Hc; left; auto. }
    apply IH. intros K; apply Hc; right; exact K.
Qed.

Lemma scan_start_lower (text : str) (i st : Z) :
  -1 <= st -> 0 <= i -> -1 <= fst (scan_brackets i st text).
Proof.
  revert i st; induction text as [|c text IH]; intros i st H1 H2.
  - exact H1.
  - cbn [scan_brackets].
    destruct (N.eqb c (ch "]")).
    + cbn [fst]. destruct (N.eqb c (ch "[")); lia.
    + apply IH; [destruct (N.eqb c (ch "[")); lia | lia].
Qed.

(** What a scan that found a closing bracket has seen. *)
Lemma scan_found (text : str) (i st s e : Z) :
  0 <= i -> scan_brackets i st text = (s, e) -> e <> -1 ->
  exists pre post,
    text = pre ++ ch "]" :: post /\ ~ In (ch "]") pre /\ e = i + len pre /\
    ((s = st /\ ~ In (ch "[") pre)
     \/ exists a b, pre = a ++ ch "[" :: b /\ ~ In (ch "[") b /\ s = i + len a).
Proof.
  revert i st; induction text as [|c text IH]; intros i st Hi E Hne.
  - cbn in E. injection E as <- <-. congruence.
  - cbn [scan_brackets] in E.
    destruct (N.eqb c (ch "]")) eqn:E2.
    + apply N.eqb_eq in E2. subst c. injection E as <- <-.
      exists [], text.
      split; [reflexivity|]. split; [intros []|].
      split; [unfold len; cbn; lia|]. left; split; [reflexivity|intros []].
    + apply N.eqb_neq in E2.
      destruct (IH (i + 1) _ ltac:(lia) E Hne) as (pre & post & -> & Hc & -> & Hs).
      exists (c :: pre), post. rewrite len_cons.
      split; [reflexivity|]. split; [intros [K|K]; [congruence|auto]|].
      split; [lia|].
      destruct Hs as [[-> Ho]|(a & b & -> & Hb & ->)].
      * destruct (N.eqb c (ch "[")) eqn:E1.
        -- apply N.eqb_eq in E1. subst c. right. exists [], pre.
           split; [reflexivity|]. split; [exact Ho|]. unfold len; cbn; lia.
        -- apply N.eqb_neq in E1. left. split; auto.
           intros [K|K]; [congruence|auto].
      * right. exists (c :: a), b. rewrite len_cons.
        split; [reflexivity|]. split; [exact Hb|]. lia.
Qed.

End ScanBrackets.

(** A split result reconstructs the text, and its head and reading are free
    of the brackets that would have ended them earlier. *)
Lemma find_head_reading_suffix_split (text : str) (p : SplitFurigana) :
  find_head_reading_suffix text = Split p ->
  text = annotate (head p) (reading p) (suffix p)
  /\ head p <> []
  /\ ~ In (ch "]") (head p)
  /\ ~ In (ch "[") (reading p) /\ ~ In (ch "]") (reading p).
Proof.
  unfold find_head_reading_suffix.
  destruct (scan_brackets 0 (-1) text) as [s e] eqn:E.
  destruct ((0 <? s) && (s <? e)) eqn:G; [|discriminate].
  apply andb_true_iff in G. destruct G as [G1 G2].
  apply Z.ltb_lt in G1, G2.
  destruct (scan_found text 0 (-1) s e ltac:(lia) E ltac:(lia))
    as (pre & post & -> & Hc & -> & Hs).
  destruct Hs as [[-> _]|(a & b & -> & Hb & ->)]; [lia|].
  assert (Ha : ~ In (ch "]") a) by (intros K; apply Hc; apply in_or_app; auto).
  assert (Hb' : ~ In (ch "]") b)
    by (intros K; apply Hc; apply in_or_app; right; right; auto).
  assert (S1 : slice ((a ++ ch "[" :: b) ++ ch "]" :: post) None (Some (0 + len a)) = a).
  { rewrite <- app_assoc. rewrite Z.add_0_l. apply slice_prefix. }
  assert (S2 : slice ((a ++ ch "[" :: b) ++ ch "]" :: post)
                 (Some (0 + len a + 1)) (Some (0 + len (a ++ ch "[" :: b))) = b).
  { replace ((a ++ ch "[" :: b) ++ ch "]" :: post)
      with ((a ++ [ch "["]) ++ b ++ (ch "]" :: post))
      by (rewrite <- !app_assoc; reflexivity).
    replace (0 + len a + 1) with (len (a ++ [ch "["]))
      by (rewrite len_app; unfold len; cbn; lia).
    replace (0 + len (a ++ ch "[" :: b)) with (len (a ++ [ch "["]) + len b)
      by (rewrite !len_app, len_cons; unfold len; cbn; lia).
    apply slice_middle. }
  assert (S3 : slice ((a ++ ch "[" :: b) ++ ch "]" :: post)
                 (Some (0 + len (a ++ ch "[" :: b) + 1)) None = post).
  { replace ((a ++ ch "[" :: b) ++ ch "]" :: post)
      with (((a ++ ch "[" :: b) ++ [ch "]"]) ++ post)
      by (rewrite <- !app_assoc; reflexivity).
    replace (0 + len (a ++ ch "[" :: b) + 1) with (len ((a ++ ch "[" :: b) ++ [ch "]"]))
      by (rewrite (len_app _ [ch "]"]); unfold len; cbn; lia).
    apply slice_suffix. }
  rewrite S1, S2, S3.
  intros K. injection K as <-. cbn [head reading suffix].
  split; [unfold annotate; rewrite <- app_assoc; reflexivity|].
  split; [|auto].
  intros ->. unfold len in G1; cbn in G1; lia.
Qed.

(** On an annotated token whose head and reading keep clear of the brackets
    the scan stops at the two brackets of the annotation. *)
Lemma scan_annotate (h r s : str) :
  ~ In (ch "]") h -> ~ In (ch "[") r -> ~ In (ch "]") r ->
  scan_brackets 0 (-1) (annotate h r s) = (len h, len h + 1 + len r).
Proof.
  intros Hh Hr1 Hr2. unfold annotate.
  destruct (scan_open_only h (u "[" ++ r ++ u "]" ++ s) 0 (-1) Hh) as [st' E].
  rewrite E. change (u "[" ++ r ++ u "]" ++ s) with (ch "[" :: r ++ ch "]" :: s).
  cbn [scan_brackets].
  change (N.eqb (ch "[") (ch "[")) with true.
  change (N.eqb (ch "[") (ch "]")) with false. cbv iota.
  rewrite scan_plain by assumption.
  cbn [scan_brackets].
  change (N.eqb (ch "]") (ch "]")) with true.
  change (N.eqb (ch "]") (ch "[")) with false. cbv iota.
  f_equal; lia.
Qed.

(** C1 (amended): parsing [head + "[" + reading + "]" + suffix] returns
    exactly [SplitFurigana(head, reading, suffix)] if and only if the head is
    not empty and has no closing bracket and the reading has no bracket; a
    non-empty reading alone is not enough, and is not needed. *)
Theorem find_head_reading_suffix_annotate (h r s : str) :
  find_head_reading_suffix (annotate h r s)
    = Split {| head := h; reading := r; suffix := s |}
  <-> h <> [] /\ ~ In (ch "]") h /\ ~ In (ch "[") r /\ ~ In (ch "]") r.
Proof.
  split.
  - intros E. apply find_head_reading_suffix_split in E.
    cbn [head reading suffix] in E. tauto.
  - intros (Hne & Hh & Hr1 & Hr2).
    unfold find_head_reading_suffix. rewrite scan_annotate by assumption.
    pose proof (len_nonneg r) as Lr.
    assert (Lh : 0 < len h) by (destruct h; [congruence | rewrite len_cons; pose proof (len_nonneg h); lia]).
    destruct (0 <? len h) eqn:G1; [|apply Z.ltb_ge in G1; lia].
    destruct (len h <? len h + 1 + len r) eqn:G2; [|apply Z.ltb_ge in G2; lia].
    cbn [andb]. unfold annotate. f_equal. f_equal.
    + apply slice_prefix.
    + change (h ++ u "[" ++ r ++ u "]" ++ s) with (h ++ [ch "["] ++ r ++ (u "]" ++ s)).
      rewrite (app_assoc h).
      replace (len h + 1) with (len (h ++ [ch "["])) by (rewrite len_app; reflexivity).
      replace (len h + 1 + len r) with (len (h ++ [ch "["]) + len r)
        by (rewrite len_app; reflexivity).
      apply slice_middle.
    + replace (h ++ u "[" ++ r ++ u "]" ++ s) with ((h ++ u "[" ++ r ++ u "]") ++ s)
        by (rewrite <- !app_assoc; reflexivity).
      replace (len h + 1 + len r + 1) with (len (h ++ u "[" ++ r ++ u "]"))
        by (rewrite !len_app; change (len (u "[")) with 1; change (len (u "]")) with 1; lia).
      apply slice_suffix.
Qed.

Lemma find_head_reading_suffix_annotate_witness :
  find_head_reading_suffix (annotate (u "辛") (u "から") (u "い"))
  = Split {| head := u "辛"; reading := u "から"; suffix := u "い" |}.
Proof.
  apply (proj2 (find_head_reading_suffix_annotate (u "辛") (u "から") (u "い"))).
  split; [discriminate|].
  split; [|split]; vm_compute; intuition discriminate.
Defined.

(** C1 as stated fails: with an empty head, with a closing bracket in the
    head and with a bracket in the reading, the reading being non-empty each
    time, the parser does not give back the triple. *)
Lemma find_head_reading_suffix_annotate_counterexample :
  (u "あ" <> []
   /\ find_head_reading_suffix (annotate [] (u "あ") (u "り")) = NoFurigana (u "[あ]り"))
  /\ (u "c" <> []
      /\ find_head_reading_suffix (annotate (u "a]b") (u "c") (u "d"))
         = NoFurigana (u "a]b[c]d"))
  /\ (u "b[c" <> []
      /\ find_head_reading_suffix (annotate (u "a") (u "b[c") (u "d"))
         = Split {| head := u "a[b"; reading := u "c"; suffix := u "d" |}).
Proof.
  split; [|split]; (split; [discriminate | vm_compute; reflexivity]).
Qed.

(** C2 (amended): on a text whose bracket structure is malformed the parser
    raises nothing and returns the [NoFurigana] variant of the whole text;
    its head and its reading are both the whole text, and it has no suffix
    attribute. *)
Theorem find_head_reading_suffix_malformed (text : str) :
  malformed text ->
  find_head_reading_suffix text = NoFurigana text
  /\ part_head (find_head_reading_suffix text) = text
  /\ part_reading (find_head_reading_suffix text) = text
  /\ part_suffix (find_head_reading_suffix text) = Raised AttributeError.
Proof.
  intros M.
  assert (E : find_head_reading_suffix text = NoFurigana text).
  { unfold find_head_reading_suffix.
    destruct (scan_brackets 0 (-1) text) as [s e] eqn:Sc.
    destruct M as [M|[M|(pre & post & -> & M)]].
    - pose proof (scan_no_open_at_all text 0 (-1) M) as K. rewrite Sc in K.
      cbn [fst] in K. subst s. reflexivity.
    - pose proof (scan_no_close text 0 (-1) M) as K. rewrite Sc in K.
      cbn [snd] in K. subst e.
      pose proof (scan_start_lower text 0 (-1) ltac:(lia) ltac:(lia)) as L.
      rewrite Sc in L. cbn [fst] in L.
      destruct (s <? -1) eqn:G; [apply Z.ltb_lt in G; lia|].
      rewrite andb_false_r. reflexivity.
    - pose proof (scan_no_open pre post 0 (-1) M) as K. rewrite Sc in K.
      cbn [fst] in K. subst s. reflexivity. }
  rewrite E. split; [reflexivity|]. split; [reflexivity|]. split; reflexivity.
Qed.

Lemma find_head_reading_suffix_malformed_witness :
  find_head_reading_suffix (u "り]有[あ") = NoFurigana (u "り]有[あ")
  /\ part_head (find_head_reading_suffix (u "り]有[あ")) = u "り]有[あ"
  /\ part_reading (find_head_reading_suffix (u "り]有[あ")) = u "り]有[あ"
  /\ part_suffix (find_head_reading_suffix (u "り]有[あ")) = Raised AttributeError.
Proof.
  apply (find_head_reading_suffix_malformed (u "り]有[あ")).
  right. right. exists (u "り"), (u "有[あ"). split.
  - reflexivity.
  - vm_compute. intuition discriminate.
Defined.

(** C2 as stated fails: the text without any bracket is malformed, and the
    variant returned for it has the whole text as its reading, not the empty
    string, and no suffix at all. *)
Lemma find_head_reading_suffix_malformed_counterexample :
  malformed (u "ひらがな")
  /\ find_head_reading_suffix (u "ひらがな") = NoFurigana (u "ひらがな")
  /\ part_reading (find_head_reading_suffix (u "ひらがな")) = u "ひらがな"
  /\ u "ひらがな" <> []
  /\ part_suffix (find_head_reading_suffix (u "ひらがな")) = Raised AttributeError.
Proof.
  split; [left; vm_compute; intuition discriminate|].
  split; [vm_compute; reflexivity|].
  split; [vm_compute; reflexivity|].
  split; [discriminate | vm_compute; reflexivity].
Qed.

(** One round of the generator: nothing on the empty text; otherwise the
    part found is yielded, and a split part is followed by the parts of its
    suffix. *)
Lemma iter_split_parts_step (text : str) :
  iter_split_parts text
  = match text with
    | [] => []
    | _ :: _ =>
        match find_head_reading_suffix text with
        | NoFurigana t => if truthy (NoFurigana t) then [NoFurigana t] else []
        | Split p => Split p :: iter_split_parts (suffix p)
        end
    end.
Proof.
  funelim (iter_split_parts text); try reflexivity;
    match goal with
    | E : find_head_reading_suffix _ = _ |- _ => rewrite E
    end; reflexivity.
Qed.

(** The assertions of [main()] in [helpers/mingle_readings.py] that concern
    the functions embedded here. *)
Example main_assertions_split_and_decompose :
  whitespace_split (u " 有[あ]り 得[う]る") = [u "有[あ]り"; u "得[う]る"]
  /\ decompose_word (u "故郷[こきょう]")
     = {| head := u "故郷"; reading := u "こきょう"; suffix := [] |}
  /\ decompose_word (u "有[あ]り")
     = {| head := u "有"; reading := u "あ"; suffix := u "り" |}
  /\ decompose_word (u "ひらがな")
     = {| head := u "ひらがな"; reading := u "ひらがな"; suffix := [] |}
  /\ decompose_word (u "南[みなみ]千[ち]秋[あき]")
     = {| head := u "南千秋"; reading := u "みなみちあき"; suffix := [] |}.
Proof. split; [|split; [|split; [|split]]]; vm_compute; reflexivity. Qed.

Example main_assertions_word_reading :
  word_reading (u "有[あ]り 得[う]る")
  = {| word := u "有り得る"; reading_of_word := u "ありうる" |}
  /\ word_reading (u "有る") = {| word := u "有る"; reading_of_word := [] |}
  /\ word_reading (u "お 前[まい<br>まえ<br>めえ]")
     = {| word := u "お前"; reading_of_word := u "おまい<br>まえ<br>めえ" |}
  /\ word_reading (u "もうお 金[かね]が 無[な]くなりました。")
     = {| word := u "もうお金が無くなりました。";
          reading_of_word := u "もうおかねがなくなりました。" |}
  /\ word_reading
       (u "妹[いもうと]は 自分[じぶん]の 我[わ]が 儘[まま]が 通[とお]らないと、すぐ 拗[す]ねる。")
     = {| word := u "妹は自分の我が儘が通らないと、すぐ拗ねる。";
          reading_of_word := u "いもうとはじぶんのわがままがとおらないと、すぐすねる。" |}.
Proof. split; [|split; [|split; [|split]]]; vm_compute; reflexivity. Qed.

(* ====================================================================== *)
(** ** word_reading *)
(* ====================================================================== *)

(** C10: when the computed reading is empty or equals the computed word,
    [word_reading] returns the input text itself, untouched, with an empty
    reading. *)
Theorem word_reading_sentinel (text : str) :
  snd (word_parts text) = [] \/ fst (word_parts text) = snd (word_parts text) ->
  word_reading text = {| word := text; reading_of_word := [] |}.
Proof.
  intros H. unfold word_reading.
  destruct (word_parts text) as [w r]. cbn [fst snd] in H.
  destruct H as [->| ->].
  - reflexivity.
  - rewrite eqb_str_refl. cbn [negb]. rewrite andb_false_r. reflexivity.
Qed.

Lemma word_reading_sentinel_witness :
  word_reading (u "お 前") = {| word := u "お 前"; reading_of_word := [] |}.
Proof.
  apply (word_reading_sentinel (u "お 前")).
  right. vm_compute. reflexivity.
Defined.

(** Outside the sentinel branch the computed word and reading are returned. *)
Lemma word_reading_computed (text : str) :
  snd (word_parts text) <> [] -> fst (word_parts text) <> snd (word_parts text) ->
  word_reading text
  = {| word := fst (word_parts text); reading_of_word := snd (word_parts text) |}.
Proof.
  intros H1 H2. unfold word_reading.
  destruct (word_parts text) as [w r]. cbn [fst snd] in *.
  apply eqb_str_neq in H1, H2. rewrite H1, H2. reflexivity.
Qed.

(** The sentinel keeps bracket annotations too, where the computed word has
    none. *)
Example word_reading_keeps_brackets :
  word_parts (u "前[前]") = (u "前", u "前")
  /\ word_reading (u "前[前]") = {| word := u "前[前]"; reading_of_word := [] |}.
Proof. split; vm_compute; reflexivity. Qed.

(* ====================================================================== *)
(** ** Deduplication and the ordered dictionary *)
(* ====================================================================== *)

Section Dedup.

Context {A : Type} (eqb : A -> A -> bool).
Hypothesis eqb_spec : forall a b, eqb a b = true <-> a = b.

Lemma eqb_sym (a b : A) : eqb a b = eqb b a.
Proof.
  destruct (eqb a b) eqn:E1, (eqb b a) eqn:E2; try reflexivity.
  - apply eqb_spec in E1. subst. rewrite (proj2 (eqb_spec b b) eq_refl) in E2. discriminate.
  - apply eqb_spec in E2. subst. rewrite (proj2 (eqb_spec a a) eq_refl) in E1. discriminate.
Qed.

Lemma existsb_eqb_In (x : A) (l : list A) : existsb (eqb x) l = true <-> In x l.
Proof.
  rewrite existsb_exists. split.
  - intros (y & Hy & E). apply eqb_spec in E. subst. exact Hy.
  - intros H. exists x. split; [exact H | apply eqb_spec; reflexivity].
Qed.

Lemma filter_twice (f g : A -> bool) (l : list A) :
  filter f (filter g l) = filter (fun x => g x && f x) l.
Proof.
  induction l as [|x l IH]; [reflexivity|].
  cbn [filter]. destruct (g x); cbn [filter andb]; rewrite IH; reflexivity.
Qed.

Lemma dedup_In (x : A) (l : list A) : In x (dedup eqb l) <-> In x l.
Proof.
  induction l as [|y l IH]; [reflexivity|].
  cbn [dedup In]. rewrite filter_In, IH. split.
  - intros [H|[H _]]; auto.
  - intros [H|H]; [left; exact H|].
    destruct (eqb y x) eqn:E.
    + left. apply eqb_spec. exact E.
    + right. split; [exact H | reflexivity].
Qed.

Lemma dedup_NoDup (l : list A) : NoDup (dedup eqb l).
Proof.
  induction l as [|y l IH]; cbn [dedup]; constructor.
  - rewrite filter_In. intros [_ H].
    rewrite (proj2 (eqb_spec y y) eq_refl) in H. discriminate.
  - apply NoDup_filter. exact IH.
Qed.

(** The guarded append of the sources, folded over a list, deduplicates. *)
Lemma fold_append_new (vs l0 : list A) :
  fold_left (fun l v => if existsb (eqb v) l then l else l ++ [v]) vs l0
  = l0 ++ filter (fun v => negb (existsb (eqb v) l0)) (dedup eqb vs).
Proof.
  revert l0; induction vs as [|v vs IH]; intros l0.
  - cbn. symmetry. apply app_nil_r.
  - cbn [fold_left dedup filter]. rewrite IH.
    destruct (existsb (eqb v) l0) eqn:E.
    + cbn [negb]. f_equal. rewrite filter_twice. apply filter_ext.
      intros x. destruct (eqb v x) eqn:Ex; [|reflexivity].
      apply eqb_spec in Ex. subst x. rewrite E. reflexivity.
    + cbn [negb]. rewrite <- app_assoc. cbn [app]. do 2 f_equal.
      rewrite filter_twice. apply filter_ext.
      intros x. rewrite existsb_app. cbn [existsb]. rewrite orb_false_r.
      rewrite (eqb_sym x v).
      destruct (existsb (eqb x) l0), (eqb v x); reflexivity.
Qed.

Lemma fold_append_new_nil (vs : list A) :
  fold_left (fun l v => if existsb (eqb v) l then l else l ++ [v]) vs [] = dedup eqb vs.
Proof.
  rewrite fold_append_new. cbn [app existsb negb].
  induction (dedup eqb vs) as [|x l IH]; [reflexivity|].
  cbn [filter]. f_equal. exact IH.
Qed.

End Dedup.

Section Dict.

Context {V : Type}.

Lemma dict_keys_set (d : dict V) (k : str) (v : V) :
  dict_keys (dict_set d k v)
  = if existsb (eqb_str k) (dict_keys d) then dict_keys d else dict_keys d ++ [k].
Proof.
  unfold dict_keys. induction d as [|[k' v'] d IH]; [reflexivity|].
  cbn [dict_set map fst existsb].
  rewrite (eqb_sym eqb_str eqb_str_eq k k').
  destruct (eqb_str k' k); cbn [orb map fst]; [reflexivity|].
  rewrite IH. destruct (existsb (eqb_str k) (map fst d)); reflexivity.
Qed.

Lemma dict_get_set (d : dict V) (k k' : str) (v : V) :
  dict_get (dict_set d k v) k' = if eqb_str k k' then Some v else dict_get d k'.
Proof.
  induction d as [|[k0 v0] d IH].
  - cbn. reflexivity.
  - cbn [dict_set dict_get].
    destruct (eqb_str k0 k) eqn:E.
    + apply eqb_str_eq in E. subst k0. cbn [dict_get].
      destruct (eqb_str k k'); reflexivity.
    + cbn [dict_get]. rewrite IH.
      destruct (eqb_str k0 k') eqn:E'; [|reflexivity].
      apply eqb_str_eq in E'. subst k0.
      rewrite (eqb_sym eqb_str eqb_str_eq k k'), E. reflexivity.
Qed.

Lemma dict_get_In (d : dict V) (k : str) (v : V) :
  NoDup (dict_keys d) -> In (k, v) d -> dict_get d k = Some v.
Proof.
  unfold dict_keys. induction d as [|[k0 v0] d IH]; intros N H; [destruct H|].
  cbn [map fst] in N. inversion N as [|? ? N1 N2]; subst.
  cbn [dict_get]. destruct H as [H|H].
  - injection H as -> ->. rewrite eqb_str_refl. reflexivity.
  - destruct (eqb_str k0 k) eqn:E.
    + apply eqb_str_eq in E. subst k0. exfalso. apply N1.
      apply in_map_iff. exists (k, v). split; [reflexivity | exact H].
    + apply IH; assumption.
Qed.

End Dict.

Lemma dict_fromkeys_keys (keys : list str) :
  dict_keys (dict_fromkeys keys) = dedup eqb_str keys.
Proof.
  unfold dict_fromkeys.
  rewrite <- (fold_append_new_nil eqb_str eqb_str_eq).
  change (@nil str) with (dict_keys (@nil (str * unit))) at 2.
  generalize (@nil (str * unit)) as d.
  induction keys as [|k keys IH]; intros d; [reflexivity|].
  cbn [fold_left]. rewrite IH. rewrite dict_keys_set. reflexivity.
Qed.

(* ====================================================================== *)
(** ** mingle_readings *)
(* ====================================================================== *)

Section Columns.

Context {A : Type}.

(** Comparing neighbours finds a difference in length exactly when two
    rows differ in length. *)
Lemma pairs_same_length (rows : list (list A)) :
  existsb (fun xy => negb (Nat.eqb (length (fst xy)) (length (snd xy)))) (pairs rows) = false
  <-> forall a b, In a rows -> In b rows -> length a = length b.
Proof.
  split.
  - intros H.
    assert (K : forall a, In a rows -> length a = length (hd [] rows)).
    { induction rows as [|x r IH]; [intros a []|].
      destruct r as [|y r'].
      - intros a [<-|[]]. reflexivity.
      - change (pairs (x :: y :: r')) with ((x, y) :: pairs (y :: r')) in H.
        cbn [existsb fst snd] in H. apply orb_false_iff in H. destruct H as [H1 H2].
        apply negb_false_iff, Nat.eqb_eq in H1.
        intros a [<-|Ha]; [reflexivity|].
        cbn [hd]. rewrite H1. apply (IH H2 a Ha). }
    intros a b Ha Hb. rewrite (K a Ha), (K b Hb). reflexivity.
  - intros H.
    destruct (existsb _ (pairs rows)) eqn:E; [|reflexivity].
    apply existsb_exists in E. destruct E as ([a b] & Hin & D).
    cbn [fst snd] in D. apply negb_true_iff, Nat.eqb_neq in D.
    exfalso. apply D. apply H.
    + apply (in_combine_l _ _ _ _ Hin).
    + apply in_combine_r in Hin. destruct rows; [destruct Hin | right; exact Hin].
Qed.

Lemma list_as_nth (d : A) (l : list A) :
  l = map (fun p => nth p l d) (seq 0 (length l)).
Proof.
  apply (nth_ext _ _ d (nth 0 l d)).
  - rewrite length_map, length_seq. reflexivity.
  - intros n Hn.
    rewrite (map_nth (fun p => nth p l d) (seq 0 (length l)) 0%nat n).
    rewrite seq_nth by exact Hn. reflexivity.
Qed.

Lemma combine_map_map {B C} (f : nat -> B) (g : nat -> C) (s : list nat) :
  combine (map f s) (map g s) = map (fun p => (f p, g p)) s.
Proof. induction s as [|x s IH]; [reflexivity|]. cbn. rewrite IH. reflexivity. Qed.

Lemma map_combine_snd {B C D} (h : B -> C -> D) (g : (A * list A) -> C)
  (l1 : list B) (l2 : list (A * list A)) :
  map (fun xc => h (fst xc) (g (snd xc))) (combine l1 l2)
  = map (fun xy => h (fst xy) (snd xy)) (combine l1 (map g l2)).
Proof.
  revert l2; induction l1 as [|x l1 IH]; intros [|y l2]; try reflexivity.
  cbn. rewrite IH. reflexivity.
Qed.

End Columns.

(** The columns produced by [zip] are the tokens at each position. *)
Lemma zip_star_columns (rows : list (list str)) (n : nat) :
  rows <> [] -> (forall row, In row rows -> length row = n) ->
  map (fun c => fst c :: snd c) (zip_star rows) = map (fun p => column p rows) (seq 0 n).
Proof.
  induction rows as [|row others IH]; [congruence|].
  intros _ Hlen.
  assert (Hrow : row = map (fun p => nth p row []) (seq 0 n)).
  { rewrite <- (Hlen row (or_introl eq_refl)). apply list_as_nth. }
  destruct others as [|o os].
  - cbn [zip_star]. rewrite map_map. cbn [fst snd].
    transitivity (map (fun x : str => [x]) (map (fun p => nth p row []) (seq 0 n))).
    + rewrite <- Hrow. reflexivity.
    + rewrite map_map. reflexivity.
  - assert (IH' := IH ltac:(discriminate) (fun r H => Hlen r (or_intror H))).
    change (zip_star (row :: o :: os))
      with (map (fun xc : str * (str * list str) =>
                   (fst xc, fst (snd xc) :: snd (snd xc)))
                (combine row (zip_star (o :: os)))).
    rewrite map_map. cbn [fst snd].
    rewrite (map_combine_snd (fun x c => x :: c) (fun c => fst c :: snd c)).
    rewrite IH'.
    transitivity (map (fun xy : str * list str => fst xy :: snd xy)
                    (combine (map (fun p => nth p row []) (seq 0 n))
                             (map (fun p => column p (o :: os)) (seq 0 n)))).
    + rewrite <- Hrow. reflexivity.
    + rewrite combine_map_map, map_map. reflexivity.
Qed.

Lemma mingle_pack_token (sep : str) (c : str * list str) :
  mingle_pack sep c = mingled_token sep (fst c :: snd c).
Proof.
  unfold mingle_pack, mingled_token. cbn [hd map].
  rewrite dict_fromkeys_keys, map_map.
  cbn [map]. destruct (eqb_str _ _); reflexivity.
Qed.

(** C5: with at least two notations, [mingle_readings] returns the first
    notation when two of them split into different numbers of tokens; when all
    split into [n] tokens it returns the concatenation, in order, of the
    outputs for the positions [0 .. n-1], each output being the bare head when
    the joined deduplicated readings equal the head and otherwise
    [" head[readings]suffix"] with the head and suffix of the first notation
    (this holds at every position, so also where the heads all match). *)
Theorem mingle_readings_spec (sep : str) (words_furigana : list str) :
  (2 <= length words_furigana)%nat ->
  ((exists a b, In a (map whitespace_split words_furigana)
                /\ In b (map whitespace_split words_furigana)
                /\ length a <> length b) ->
   mingle_readings sep words_furigana = Returned (hd [] words_furigana))
  /\ (forall n,
        (forall a, In a (map whitespace_split words_furigana) -> length a = n) ->
        mingle_readings sep words_furigana
        = Returned (concat (map (fun p => mingled_token sep
                                            (column p (map whitespace_split words_furigana)))
                                (seq 0 n)))).
Proof.
  intros Hlen. unfold mingle_readings.
  destruct (1 <? Z.of_nat (length words_furigana)) eqn:G;
    [|apply Z.ltb_ge in G; lia].
  cbn [negb]. split.
  - intros (a & b & Ha & Hb & D).
    destruct (existsb _ (pairs (map whitespace_split words_furigana))) eqn:E.
    + destruct words_furigana; [cbn in Hlen; lia | reflexivity].
    + exfalso. apply D. apply (proj1 (pairs_same_length _) E); assumption.
  - intros n Hn.
    destruct (existsb _ (pairs (map whitespace_split words_furigana))) eqn:E.
    + exfalso.
      assert (K : existsb (fun xy : list str * list str =>
                   negb (Nat.eqb (length (fst xy)) (length (snd xy))))
                   (pairs (map whitespace_split words_furigana)) = false).
      { apply pairs_same_length. intros a b Ha Hb.
        rewrite (Hn a Ha), (Hn b Hb). reflexivity. }
      congruence.
    + f_equal. f_equal.
      rewrite <- (map_map (fun p => column p (map whitespace_split words_furigana))
                          (mingled_token sep)).
      rewrite <- (zip_star_columns (map whitespace_split words_furigana) n).
      * rewrite map_map. apply map_ext. intros c. apply mingle_pack_token.
      * destruct words_furigana; [cbn in Hlen; lia | discriminate].
      * exact Hn.
Qed.

Lemma mingle_readings_spec_witness :
  mingle_readings DEFAULT_SEP [u " 有[あ]り 得[う]る"; u " 有[あ]り 得[え]る"]
  = Returned (u " 有[あ]り 得[う, え]る").
Proof.
  apply (proj2 (mingle_readings_spec DEFAULT_SEP
                  [u " 有[あ]り 得[う]る"; u " 有[あ]り 得[え]る"] ltac:(cbn; lia)) 2%nat).
  intros a [<-|[<-|[]]]; vm_compute; reflexivity.
Defined.

(** The fallback and the examples of the source. *)
Example mingle_readings_examples :
  mingle_readings DEFAULT_SEP [u " 言[い]い 分[ぶん]"; u " 言い分[いーぶん]"]
  = Returned (u " 言[い]い 分[ぶん]")
  /\ mingle_readings DEFAULT_SEP
       [u " 有[あ]り 得[う]る"; u " 有[あ]り 得[え]る"; u " 有[あ]り 得[え]る"]
     = Returned (u " 有[あ]り 得[う, え]る")
  /\ mingle_readings DEFAULT_SEP [u "お 前[まえ]"; u "お 前[めえ]"]
     = Returned (u "お 前[まえ, めえ]")
  /\ mingle_readings DEFAULT_SEP [u " 故郷[こきょう]"; u " 故郷[ふるさと]"]
     = Returned (u " 故郷[こきょう, ふるさと]")
  /\ mingle_readings DEFAULT_SEP [u " 辛[から]い"] = Raised AssertionError.
Proof. split; [|split; [|split; [|split]]]; vm_compute; reflexivity. Qed.

(* ====================================================================== *)
(** ** adjust_reading *)
(* ====================================================================== *)

Lemma getitem_returned (s : str) (i : Z) (c : char) :
  getitem s i = Returned c -> - len s <= i < len s.
Proof.
  unfold getitem. destruct (i <? 0) eqn:N;
    destruct (_ && _) eqn:B; try discriminate;
    apply andb_true_iff in B; destruct B as [B1 B2];
    apply Z.leb_le in B1; apply Z.ltb_lt in B2;
    [apply Z.ltb_lt in N | apply Z.ltb_ge in N]; intros _; lia.
Qed.

Lemma getitem_raised (s : str) (i : Z) (e : exn) :
  getitem s i = Raised e -> e = IndexError.
Proof.
  unfold getitem. destruct (_ && _); [|congruence].
  destruct (nth_error _ _); congruence.
Qed.

Lemma getitem_total (s : str) (i : Z) :
  - len s <= i < len s -> exists c, getitem s i = Returned c.
Proof.
  intros H. unfold getitem.
  set (j := if i <? 0 then i + len s else i).
  assert (Hj : 0 <= j < len s).
  { unfold j. destruct (i <? 0) eqn:N;
      [apply Z.ltb_lt in N | apply Z.ltb_ge in N]; lia. }
  destruct (0 <=? j) eqn:B1; [|apply Z.leb_gt in B1; lia].
  destruct (j <? len s) eqn:B2; [|apply Z.ltb_ge in B2; lia].
  cbn [andb].
  destruct (nth_error s (Z.to_nat j)) eqn:E; [eexists; reflexivity|].
  apply nth_error_None in E. unfold len in Hj. lia.
Qed.

Section Walk.

Variable normalize : str -> str.

(** One round of the loop. *)
Lemma walk_step (hw rd : str) (tr : list (Z * Z)) (ih ir : Z) :
  walk normalize hw rd tr ih ir =
  match getitem hw (ih - 1) with
  | Raised e => (tr ++ [(ih - 1, ir - 1)], Raised e)
  | Returned a =>
      match getitem rd (ir - 1) with
      | Raised e => (tr ++ [(ih - 1, ir - 1)], Raised e)
      | Returned b =>
          if eqb_str (normalize [a]) (normalize [b])
          then walk normalize hw rd (tr ++ [(ih - 1, ir - 1)]) (ih - 1) (ir - 1)
          else (tr ++ [(ih - 1, ir - 1)], Returned (ih, ir))
      end
  end.
Proof.
  funelim (walk normalize hw rd tr ih ir);
    repeat match goal with
           | E : getitem _ _ = _ |- _ => progress rewrite E
           | E : eqb_str _ _ = _ |- _ => progress rewrite E
           end; reflexivity.
Qed.

(** From distance [m] on, with agreement up to [k] and disagreement at [k],
    the walk stops at [k]; it has read the subscripts of the distances
    [m .. k] and no other. *)
Lemma walk_from (hw rd : str) (n : nat) :
  forall (m k : Z) (tr : list (Z * Z)),
    k = m + Z.of_nat n -> 0 <= m ->
    (forall j, m <= j < k -> matches_at normalize hw rd j) ->
    differs_at normalize hw rd k ->
    exists tr',
      walk normalize hw rd tr (len hw - m) (len rd - m)
      = (tr ++ tr', Returned (len hw - k, len rd - k))
      /\ Forall (fun p => exists j, m <= j <= k
                           /\ p = (len hw - 1 - j, len rd - 1 - j)) tr'.
Proof.
  induction n as [|n IH]; intros m k tr Hk Hm Hmatch Hdiff.
  - change (Z.of_nat 0) with 0 in Hk. rewrite Z.add_0_r in Hk. subst k.
    destruct Hdiff as (a & b & Ea & Eb & D).
    rewrite walk_step.
    replace (len hw - m - 1) with (len hw - 1 - m) by lia.
    replace (len rd - m - 1) with (len rd - 1 - m) by lia.
    rewrite Ea, Eb. apply eqb_str_neq in D. rewrite D.
    eexists. split; [reflexivity|].
    constructor; [|constructor]. exists m. split; [lia | reflexivity].
  - destruct (Hmatch m ltac:(lia)) as (a & b & Ea & Eb & M).
    rewrite walk_step.
    replace (len hw - m - 1) with (len hw - 1 - m) by lia.
    replace (len rd - m - 1) with (len rd - 1 - m) by lia.
    rewrite Ea, Eb. apply eqb_str_eq in M. rewrite M.
    replace (len hw - 1 - m) with (len hw - (m + 1)) by lia.
    replace (len rd - 1 - m) with (len rd - (m + 1)) by lia.
    destruct (IH (m + 1) k (tr ++ [(len hw - (m + 1), len rd - (m + 1))])
                ltac:(lia) ltac:(lia)
                (fun j Hj => Hmatch j ltac:(lia)) Hdiff) as (tr' & E & F).
    rewrite E. rewrite <- app_assoc. eexists. split; [reflexivity|].
    constructor.
    + exists m. split; [lia | f_equal; lia].
    + eapply Forall_impl; [|exact F].
      intros p (j & Hj & ->). exists j. split; [lia | reflexivity].
Qed.

(** The walk always ends: at the end of a trailing run, or with an
    [IndexError]. *)
Lemma walk_outcome (hw rd : str) (n : nat) :
  forall (m : Z) (tr : list (Z * Z)),
    2 * len hw - m < Z.of_nat n -> 0 <= m ->
    (forall j, 0 <= j < m -> matches_at normalize hw rd j) ->
    (exists k, trailing_run normalize hw rd k
               /\ snd (walk normalize hw rd tr (len hw - m) (len rd - m))
                  = Returned (len hw - k, len rd - k))
    \/ snd (walk normalize hw rd tr (len hw - m) (len rd - m)) = Raised IndexError.
Proof.
  induction n as [|n IH]; intros m tr Hn Hm Hmatch.
  - right. rewrite walk_step.
    destruct (getitem hw (len hw - m - 1)) as [a|e] eqn:Ea.
    + apply getitem_returned in Ea. lia.
    + apply getitem_raised in Ea. subst e. reflexivity.
  - rewrite walk_step.
    destruct (getitem hw (len hw - m - 1)) as [a|e] eqn:Ea;
      [|right; apply getitem_raised in Ea; subst e; reflexivity].
    destruct (getitem rd (len rd - m - 1)) as [b|e] eqn:Eb;
      [|right; apply getitem_raised in Eb; subst e; reflexivity].
    destruct (eqb_str (normalize [a]) (normalize [b])) eqn:E.
    + replace (len hw - m - 1) with (len hw - (m + 1)) by lia.
      replace (len rd - m - 1) with (len rd - (m + 1)) by lia.
      apply getitem_returned in Ea as Ba.
      apply IH; [lia | lia |].
      intros j Hj. destruct (Z.eq_dec j m) as [->|Hne].
      * exists a, b.
        replace (len hw - 1 - m) with (len hw - m - 1) by lia.
        replace (len rd - 1 - m) with (len rd - m - 1) by lia.
        apply eqb_str_eq in E. auto.
      * apply Hmatch. lia.
    + left. exists m. split; [|reflexivity].
      split; [exact Hm|]. split; [exact Hmatch|].
      exists a, b.
      replace (len hw - 1 - m) with (len hw - m - 1) by lia.
      replace (len rd - 1 - m) with (len rd - m - 1) by lia.
      apply eqb_str_neq in E. auto.
Qed.

(** C3 (amended): [adjust_reading] returns the raw text when the normalized
    headword equals the normalized reading; otherwise the given reading when
    the normalized headword equals the normalized raw text; otherwise it
    walks headword and reading from their ends (Python subscripts, so below
    zero they wrap around) while the normalized characters agree: when a
    disagreeing pair is reached after [k] agreeing ones it returns
    [reading[:len(reading)-k] + raw[len(headword)-k:]], and when a subscript
    leaves the string first it raises [IndexError]. *)
Theorem adjust_reading_branches (raw_word headword headword_reading : str) :
  (normalize headword = normalize headword_reading ->
   adjust_reading normalize raw_word headword headword_reading = Returned raw_word)
  /\ (normalize headword <> normalize headword_reading ->
      normalize headword = normalize raw_word ->
      adjust_reading normalize raw_word headword headword_reading
      = Returned headword_reading)
  /\ (normalize headword <> normalize headword_reading ->
      normalize headword <> normalize raw_word ->
      forall k, trailing_run normalize headword headword_reading k ->
      adjust_reading normalize raw_word headword headword_reading
      = Returned (slice headword_reading None (Some (len headword_reading - k))
                  ++ slice raw_word (Some (len headword - k)) None))
  /\ (normalize headword <> normalize headword_reading ->
      normalize headword <> normalize raw_word ->
      (forall k, ~ trailing_run normalize headword headword_reading k) ->
      adjust_reading normalize raw_word headword headword_reading = Raised IndexError).
Proof.
  unfold adjust_reading. split; [|split; [|split]].
  - intros E. apply eqb_str_eq in E. rewrite E. reflexivity.
  - intros N1 E. apply eqb_str_neq in N1. apply eqb_str_eq in E.
    rewrite N1, E. reflexivity.
  - intros N1 N2 k (Hk & Hmatch & Hdiff).
    apply eqb_str_neq in N1, N2. rewrite N1, N2.
    destruct (walk_from headword headword_reading (Z.to_nat k) 0 k []
                ltac:(lia) ltac:(lia) Hmatch Hdiff) as (tr' & E & _).
    rewrite !Z.sub_0_r in E. rewrite E. reflexivity.
  - intros N1 N2 Hno.
    apply eqb_str_neq in N1, N2. rewrite N1, N2.
    destruct (walk_outcome headword headword_reading
                (Z.to_nat (2 * len headword + 1)) 0 []
                ltac:(pose proof (len_nonneg headword); lia) ltac:(lia)
                ltac:(intros j Hj; lia)) as [(k & T & _)|E].
    + exfalso. exact (Hno k T).
    + rewrite !Z.sub_0_r in E. rewrite E. reflexivity.
Qed.

(** C4 (amended): when the shared trailing run is shorter than the headword
    and than its reading, that is, a disagreeing pair is reached before either
    string is used up (the run may be empty), the walk ends with both cursors
    strictly positive and every subscript it has read lies inside its
    string. *)
Theorem walk_in_bounds (headword headword_reading : str) (k : Z) :
  trailing_run normalize headword headword_reading k ->
  k < len headword -> k < len headword_reading ->
  exists trace,
    walk normalize headword headword_reading [] (len headword) (len headword_reading)
    = (trace, Returned (len headword - k, len headword_reading - k))
    /\ 0 < len headword - k /\ 0 < len headword_reading - k
    /\ Forall (in_bounds headword headword_reading) trace.
Proof.
  intros (Hk & Hmatch & Hdiff) H1 H2.
  destruct (walk_from headword headword_reading (Z.to_nat k) 0 k []
              ltac:(lia) ltac:(lia) Hmatch Hdiff) as (tr' & E & F).
  rewrite !Z.sub_0_r in E. exists tr'. split; [exact E|].
  split; [lia|]. split; [lia|].
  eapply Forall_impl; [|exact F].
  intros p (j & Hj & ->). unfold in_bounds. cbn [fst snd]. lia.
Qed.

End Walk.

Lemma trailing_run_shinu : trailing_run to_katakana (u "死ぬ") (u "しぬ") 1.
Proof.
  split; [lia|]. split.
  - intros j Hj. assert (j = 0) by lia. subst j.
    do 2 eexists. split; [vm_compute; reflexivity|].
    split; [vm_compute; reflexivity|]. vm_compute. reflexivity.
  - do 2 eexists. split; [vm_compute; reflexivity|].
    split; [vm_compute; reflexivity|]. vm_compute. discriminate.
Defined.

Lemma adjust_reading_branches_witness :
  adjust_reading to_katakana (u "死ん") (u "死ぬ") (u "しぬ") = Returned (u "しん").
Proof.
  change (Returned (u "しん"))
    with (Returned (slice (u "しぬ") None (Some (len (u "しぬ") - 1))
                    ++ slice (u "死ん") (Some (len (u "死ぬ") - 1)) None)).
  refine (proj1 (proj2 (proj2
            (adjust_reading_branches to_katakana (u "死ん") (u "死ぬ") (u "しぬ"))))
            _ _ 1 trailing_run_shinu).
  - vm_compute. discriminate.
  - vm_compute. discriminate.
Defined.

(** C3 as stated fails.  Its first example takes the second branch and
    returns the reading, not the raw text.  And the walk does not return for
    every input: here the reading is used up while the characters still
    agree, and the next subscript is out of range. *)
Lemma adjust_reading_branches_counterexample :
  (adjust_reading to_katakana (u "言い方") (u "言い方") (u "いいかた")
   = Returned (u "いいかた")
   /\ u "いいかた" <> u "言い方")
  /\ (to_katakana (u "いい") <> to_katakana (u "い")
      /\ to_katakana (u "いい") <> to_katakana (u "よい")
      /\ adjust_reading to_katakana (u "よい") (u "いい") (u "い") = Raised IndexError).
Proof.
  split; [split|split; [|split]]; vm_compute; (reflexivity || discriminate).
Qed.

Lemma walk_in_bounds_witness :
  exists trace,
    walk to_katakana (u "死ぬ") (u "しぬ") [] (len (u "死ぬ")) (len (u "しぬ"))
    = (trace, Returned (len (u "死ぬ") - 1, len (u "しぬ") - 1))
    /\ 0 < len (u "死ぬ") - 1 /\ 0 < len (u "しぬ") - 1
    /\ Forall (in_bounds (u "死ぬ") (u "しぬ")) trace.
Proof.
  apply (walk_in_bounds to_katakana (u "死ぬ") (u "しぬ") 1 trailing_run_shinu).
  - vm_compute. reflexivity.
  - vm_compute. reflexivity.
Defined.

(** C4 as stated fails: headword and reading share the non-empty trailing
    run of three kana and neither of the first two branches applies, yet the
    walk uses up the reading, reads the subscript -1 (the last character
    again) and stops with the reading cursor at 0. *)
Lemma walk_in_bounds_counterexample :
  matches_at to_katakana (u "Tシャツ") (u "しゃつ") 0
  /\ to_katakana (u "Tシャツ") <> to_katakana (u "しゃつ")
  /\ to_katakana (u "Tシャツ") <> to_katakana (u "Tシャツだ")
  /\ walk to_katakana (u "Tシャツ") (u "しゃつ") [] (len (u "Tシャツ")) (len (u "しゃつ"))
     = ([(3, 2); (2, 1); (1, 0); (0, -1)], Returned (1, 0))
  /\ ~ in_bounds (u "Tシャツ") (u "しゃつ") (0, -1)
  /\ adjust_reading to_katakana (u "Tシャツだ") (u "Tシャツ") (u "しゃつ")
     = Returned (u "シャツだ").
Proof.
  split.
  { do 2 eexists. split; [vm_compute; reflexivity|].
    split; [vm_compute; reflexivity|]. vm_compute. reflexivity. }
  split; [vm_compute; discriminate|].
  split; [vm_compute; discriminate|].
  split; [vm_compute; reflexivity|].
  split; [|vm_compute; reflexivity].
  unfold in_bounds. cbn [fst snd]. lia.
Qed.

(* ====================================================================== *)
(** ** format_entry *)
(* ====================================================================== *)


(** The overline span after a mora: closed after the digit 2, open after
    any other digit above 0, closed after 0.  An overline opens exactly when
    none was open and the digit is above 0; it closes before the mora exactly
    when one was open and the digit is 0, and after the mora exactly when the
    digit is 2. *)
Lemma format_step_overline (nasal devoiced : list Z) (flag : bool)
  (idx : Z) (c : char) (acc : Z) :
  0 <= acc ->
  snd (format_step nasal devoiced flag idx c acc) = (0 <? acc) && negb (acc =? 2)
  /\ (In OverlineOpen (fst (format_step nasal devoiced flag idx c acc))
      <-> flag = false /\ 0 < acc)
  /\ (In OverlineClose (fst (format_step nasal devoiced flag idx c acc))
      <-> flag = true /\ acc = 0)
  /\ (In CloseDownstep (fst (format_step nasal devoiced flag idx c acc))
      <-> acc = 2).
Proof.
  intros Hacc. unfold format_step.
  destruct (Z.ltb_spec 0 acc); destruct (Z.eqb_spec acc 0); destruct (Z.eqb_spec acc 2);
    try lia;
    destruct flag, (Z_in (idx + 1) devoiced), (Z_in (idx + 1) nasal);
    cbn [negb andb fst snd app In];
    (split; [reflexivity|]);
    (split; [|split]); split;
    intros K;
    repeat match goal with
           | K : _ \/ _ |- _ => destruct K as [K|K]
           | K : _ /\ _ |- _ => destruct K
           | K : False |- _ => destruct K
           end;
    try discriminate; try lia;
    try (split; [reflexivity | lia]); auto 7.
Qed.




Section FormatLoop.

Variable int : str -> result Z.




End FormatLoop.






Lemma getitem_In (s : str) (i : Z) (c : char) : getitem s i = Returned c -> In c s.
Proof.
  unfold getitem. destruct (_ && _); [|discriminate].
  destruct (nth_error s _) eqn:E; [|discriminate].
  intros [= <-]. apply (nth_error_In _ _ E).
Qed.

(** With digits that [int] accepts and position codes that parse,
    [format_entry] returns. *)
Lemma format_entry_returns (int : str -> result Z) (e : AccentEntry) :
  (forall d, In d (ch "0" :: accent e) -> exists z, int [d] = Returned z) ->
  (exists nasal, format_nasal_or_devoiced_positions int (nasalsoundpos e) = Returned nasal) ->
  (exists devoiced, format_nasal_or_devoiced_positions int (devoiced_pos e) = Returned devoiced) ->
  exists html, format_entry int e = Returned html.
Proof.
  intros Hd (nasal & En) (devoiced & Ed).
  unfold format_entry, format_pieces, bind. rewrite En, Ed.
  set (acc_pattern :=
         repeat (ch "0") (Z.to_nat (len (katakana_reading_alt e) - len (accent e)))
         ++ accent e).
  assert (Hlen : len (katakana_reading_alt e) <= len acc_pattern).
  { unfold acc_pattern. rewrite len_app.
    assert (R : forall n, len (repeat (ch "0") n) = Z.of_nat n)
      by (intros n; unfold len; rewrite repeat_length; reflexivity).
    rewrite R. pose proof (len_nonneg (accent e)). lia. }
  assert (Hin : forall d, In d acc_pattern -> exists z, int [d] = Returned z).
  { intros d H. apply Hd. unfold acc_pattern in H. apply in_app_or in H.
    destruct H as [H|H]; [left; symmetry; apply (repeat_spec _ _ _ H) | right; exact H]. }
  assert (L : forall rest flag idx,
             0 <= idx -> idx + len rest <= len acc_pattern ->
             exists ps, format_loop int nasal devoiced acc_pattern flag idx rest
                        = Returned ps).
  { induction rest as [|c rest IH]; intros flag idx H0 H1.
    - eexists. reflexivity.
    - cbn [format_loop]. unfold bind. rewrite len_cons in H1.
      pose proof (len_nonneg rest).
      destruct (getitem_total acc_pattern idx ltac:(lia)) as [d Eg]. rewrite Eg.
      destruct (Hin d (getitem_In _ _ _ Eg)) as [z Ez]. rewrite Ez.
      destruct (format_step nasal devoiced flag idx c z) as [out flag'].
      destruct (IH flag' (idx + 1) ltac:(lia) ltac:(lia)) as [ps Eps]. rewrite Eps.
      eexists. reflexivity. }
  destruct (L (katakana_reading_alt e) false 0 ltac:(lia) ltac:(lia)) as [ps Eps].
  rewrite Eps. eexists. reflexivity.
Qed.



(* ====================================================================== *)
(** ** The accent database *)
(* ====================================================================== *)

Lemma eqb_pair_eq (a b : str * str) : eqb_pair a b = true <-> a = b.
Proof.
  destruct a as [a1 a2], b as [b1 b2]. unfold eqb_pair. cbn [fst snd].
  rewrite andb_true_iff, !eqb_str_eq. split.
  - intros [-> ->]. reflexivity.
  - intros [= -> ->]. auto.
Qed.

Section Register.

Context {V : Type} (eqb : V -> V -> bool).
Hypothesis eqb_spec : forall a b, eqb a b = true <-> a = b.

Lemma register_keys (d : dict (list V)) (k : str) (v : V) :
  dict_keys (register eqb d k v)
  = if existsb (eqb_str k) (dict_keys d) then dict_keys d else dict_keys d ++ [k].
Proof. unfold register. apply dict_keys_set. Qed.

Lemma register_get (d : dict (list V)) (k k' : str) (v : V) :
  dict_get_default (register eqb d k v) k' []
  = if eqb_str k k'
    then (if existsb (eqb v) (dict_get_default d k' [])
          then dict_get_default d k' [] else dict_get_default d k' [] ++ [v])
    else dict_get_default d k' [].
Proof.
  unfold register, dict_get_default at 1. rewrite dict_get_set.
  destruct (eqb_str k k') eqn:E; [|reflexivity].
  apply eqb_str_eq in E. subst k'. reflexivity.
Qed.

Lemma register_all_keys (regs : list (str * V)) (d : dict (list V)) :
  dict_keys (register_all eqb regs d)
  = fold_left (fun l k => if existsb (eqb_str k) l then l else l ++ [k])
              (map fst regs) (dict_keys d).
Proof.
  unfold register_all. revert d; induction regs as [|[k v] regs IH]; intros d.
  - reflexivity.
  - cbn [fold_left map fst snd]. rewrite IH, register_keys. reflexivity.
Qed.

Lemma register_all_get (regs : list (str * V)) (d : dict (list V)) (key : str) :
  dict_get_default (register_all eqb regs d) key []
  = fold_left (fun l v => if existsb (eqb v) l then l else l ++ [v])
              (registered_under key regs) (dict_get_default d key []).
Proof.
  unfold register_all, registered_under.
  revert d; induction regs as [|[k v] regs IH]; intros d.
  - reflexivity.
  - cbn [fold_left filter fst snd]. rewrite IH, register_get.
    destruct (eqb_str k key); reflexivity.
Qed.

(** Starting from the empty dictionary: keys in first-seen order, and under
    each key its values in first-seen order, both without repetition. *)
Lemma register_all_spec (regs : list (str * V)) :
  dict_keys (register_all eqb regs []) = dedup eqb_str (map fst regs)
  /\ forall key,
       dict_get_default (register_all eqb regs []) key []
       = dedup eqb (registered_under key regs).
Proof.
  split.
  - rewrite register_all_keys. apply (fold_append_new_nil eqb_str eqb_str_eq).
  - intros key. rewrite register_all_get. apply (fold_append_new_nil eqb eqb_spec).
Qed.

Lemma dict_get_Some_In (d : dict (list V)) (k : str) (l : list V) :
  dict_get d k = Some l -> In (k, l) d.
Proof.
  induction d as [|[k0 l0] d IH]; [discriminate|].
  cbn [dict_get]. destruct (eqb_str k0 k) eqn:E.
  - apply eqb_str_eq in E. intros [= ->]. left. subst. reflexivity.
  - intros H. right. exact (IH H).
Qed.

Lemma register_all_entries (regs : list (str * V)) (k : str) (l : list V) :
  In (k, l) (register_all eqb regs []) -> l = dedup eqb (registered_under k regs).
Proof.
  intros H. destruct (register_all_spec regs) as [Hk Hg].
  rewrite <- Hg. unfold dict_get_default.
  rewrite (dict_get_In _ k l); [reflexivity | | exact H].
  rewrite Hk. apply (dedup_NoDup eqb_str eqb_str_eq).
Qed.

Lemma register_all_registered (regs : list (str * V)) (k : str) (v : V) :
  In (k, v) regs ->
  exists l, In (k, l) (register_all eqb regs []) /\ In v l.
Proof.
  intros H. destruct (register_all_spec regs) as [_ Hg].
  assert (Hv : In v (dict_get_default (register_all eqb regs []) k [])).
  { rewrite Hg. apply (dedup_In eqb eqb_spec). unfold registered_under.
    apply in_map_iff. exists (k, v). split; [reflexivity|].
    apply filter_In. split; [exact H | apply eqb_str_refl]. }
  unfold dict_get_default in Hv.
  destruct (dict_get (register_all eqb regs []) k) as [l|] eqn:E; [|destruct Hv].
  exists l. split; [apply dict_get_Some_In; exact E | exact Hv].
Qed.

End Register.

Lemma rows_In (d : dict (list (str * str))) (k : str) (l : list (str * str)) (v : str * str) :
  In (k, l) d -> In v l -> In (k, fst v, snd v) (rows d).
Proof.
  intros H1 H2. unfold rows. apply in_flat_map. exists (k, l).
  split; [exact H1|]. cbn [fst snd]. apply in_map_iff. exists v. auto.
Qed.

Lemma rows_key (d : dict (list (str * str))) (row : str * str * str) :
  In row (rows d) -> In (fst (fst row)) (dict_keys d).
Proof.
  unfold rows. rewrite in_flat_map. intros ([k l] & H1 & H2).
  apply in_map_iff in H2. destruct H2 as (v & <- & _). cbn [fst snd].
  unfold dict_keys. apply in_map_iff. exists (k, l). auto.
Qed.

(** With distinct keys and no repetition under any key, no row repeats. *)
Lemma rows_NoDup (d : dict (list (str * str))) :
  NoDup (dict_keys d) -> (forall k l, In (k, l) d -> NoDup l) -> NoDup (rows d).
Proof.
  induction d as [|[k l] d IH]; intros Nk Nl; [constructor|].
  unfold dict_keys in Nk. cbn [map fst] in Nk. inversion Nk as [|? ? N1 N2]; subst.
  change (rows ((k, l) :: d)) with (map (fun v => (k, fst v, snd v)) l ++ rows d).
  apply NoDup_app.
  - assert (Hl : NoDup l) by (apply (Nl k l); left; reflexivity).
    clear -Hl. induction Hl as [|v l Hv _ IHl]; [constructor|].
    cbn [map]. constructor; [|exact IHl].
    rewrite in_map_iff. intros ([v1 v2] & E & H). cbn [fst snd] in E.
    destruct v as [w1 w2]. cbn [fst snd] in E. injection E as -> ->. exact (Hv H).
  - apply IH; [exact N2|]. intros k' l' H. apply (Nl k' l'). right. exact H.
  - intros row H1 H2. apply in_map_iff in H1. destruct H1 as (v & <- & _).
    apply rows_key in H2. cbn [fst] in H2. exact (N1 H2).
Qed.

Section Build.

Variable int : str -> result Z.

(** The loop of the build performs the registrations in order. *)
Lemma build_loop_registers (entries : list AccentEntry) :
  forall (htmls : list str) (d : dict (list (str * str))),
    mapM (format_entry int) entries = Returned htmls ->
    build_loop int d entries
    = Returned (register_all eqb_pair (build_registrations entries htmls) d).
Proof.
  induction entries as [|e entries IH]; intros htmls d E.
  - cbn in E. injection E as <-. reflexivity.
  - cbn [mapM] in E. unfold bind in E.
    destruct (format_entry int e) as [html|] eqn:F; [|discriminate].
    destruct (mapM (format_entry int) entries) as [hs|] eqn:M; [|discriminate].
    injection E as <-.
    cbn [build_loop]. unfold bind. rewrite F.
    rewrite (IH hs _ eq_refl). reflexivity.
Qed.

(** C8: when every line of the corpus parses and every entry renders, the
    build returns a dictionary in which each entry's (katakana reading, html)
    pair is registered under both its [nhk] key and its [kanjiexpr] key; keys
    and the pairs under each key stand in first-seen order without
    repetition; the text written is the rows of that dictionary, and no row
    (key, katakana, html) occurs twice. *)
Theorem build_database_spec (corpus : list str) (entries : list AccentEntry)
  (htmls : list str) :
  mapM make_accent_entry corpus = Returned entries ->
  mapM (format_entry int) entries = Returned htmls ->
  exists db,
    build_dict int corpus = Returned db
    /\ build_database int corpus = Returned (concat (map write_row (rows db)))
    /\ dict_keys db = dedup eqb_str (map fst (build_registrations entries htmls))
    /\ (forall key,
          dict_get_default db key []
          = dedup eqb_pair (registered_under key (build_registrations entries htmls)))
    /\ (forall e html,
          In (e, html) (combine entries htmls) ->
          In (nhk e, katakana_reading e, html) (rows db)
          /\ In (kanjiexpr e, katakana_reading e, html) (rows db))
    /\ NoDup (rows db).
Proof.
  intros Hparse Hformat.
  set (regs := build_registrations entries htmls).
  exists (register_all eqb_pair regs []).
  assert (Hb : build_dict int corpus = Returned (register_all eqb_pair regs [])).
  { unfold build_dict, bind. rewrite Hparse. apply build_loop_registers. exact Hformat. }
  destruct (register_all_spec eqb_pair eqb_pair_eq regs) as [Hk Hg].
  split; [exact Hb|].
  split; [unfold build_database, bind; rewrite Hb; reflexivity|].
  split; [exact Hk|]. split; [exact Hg|]. split.
  - intros e html Hin.
    assert (R : forall k, k = nhk e \/ k = kanjiexpr e ->
                          In (k, (katakana_reading e, html)) regs).
    { intros k Hkk. unfold regs, build_registrations. apply in_flat_map.
      exists (e, html). split; [exact Hin|]. cbn [fst snd].
      destruct Hkk as [->| ->]; [left | right; left]; reflexivity. }
    split.
    + destruct (register_all_registered eqb_pair eqb_pair_eq regs _ _
                  (R (nhk e) (or_introl eq_refl))) as (l & H1 & H2).
      apply (rows_In _ _ _ _ H1 H2).
    + destruct (register_all_registered eqb_pair eqb_pair_eq regs _ _
                  (R (kanjiexpr e) (or_intror eq_refl))) as (l & H1 & H2).
      apply (rows_In _ _ _ _ H1 H2).
  - apply rows_NoDup.
    + rewrite Hk. apply (dedup_NoDup eqb_str eqb_str_eq).
    + intros k l H. rewrite (register_all_entries eqb_pair eqb_pair_eq regs k l H).
      apply (dedup_NoDup eqb_pair eqb_pair_eq).
Qed.

(** A build that returns has parsed every line and rendered every entry. *)
Lemma build_dict_returned (corpus : list str) (db : dict (list (str * str))) :
  build_dict int corpus = Returned db ->
  exists entries htmls,
    mapM make_accent_entry corpus = Returned entries
    /\ mapM (format_entry int) entries = Returned htmls.
Proof.
  unfold build_dict, bind.
  destruct (mapM make_accent_entry corpus) as [entries|]; [|discriminate].
  intros H. exists entries.
  assert (K : forall d, build_loop int d entries = Returned db ->
                        exists htmls, mapM (format_entry int) entries = Returned htmls).
  { clear H. induction entries as [|e entries IH]; intros d H.
    - eexists. reflexivity.
    - cbn [build_loop] in H. unfold bind in H. cbn [mapM]. unfold bind.
      destruct (format_entry int e) as [html|]; [|discriminate].
      destruct (IH _ H) as [hs ->]. eexists. reflexivity. }
  destruct (K _ H) as [htmls E]. exists htmls. auto.
Qed.

End Build.

Lemma build_database_spec_witness :
  exists entries htmls,
    mapM make_accent_entry sample_corpus = Returned entries
    /\ mapM (format_entry int_str) entries = Returned htmls
    /\ exists db,
         build_dict int_str sample_corpus = Returned db
         /\ build_database int_str sample_corpus
            = Returned (concat (map write_row (rows db)))
         /\ dict_keys db = dedup eqb_str (map fst (build_registrations entries htmls))
         /\ (forall key,
               dict_get_default db key []
               = dedup eqb_pair (registered_under key (build_registrations entries htmls)))
         /\ (forall e html,
               In (e, html) (combine entries htmls) ->
               In (nhk e, katakana_reading e, html) (rows db)
               /\ In (kanjiexpr e, katakana_reading e, html) (rows db))
         /\ NoDup (rows db).
Proof.
  destruct (mapM make_accent_entry sample_corpus) as [entries|] eqn:E;
    [|vm_compute in E; discriminate].
  destruct (mapM (format_entry int_str) entries) as [htmls|] eqn:F.
  - exists entries, htmls. split; [reflexivity|]. split; [exact F|].
    apply (build_database_spec int_str sample_corpus entries htmls E F).
  - vm_compute in E. injection E as <-. vm_compute in F. discriminate.
Defined.

(** The sample corpus yields four rows: the repeated line adds nothing. *)
Example build_database_sample :
  build_database int_str sample_corpus
  = Returned
      (write_row (u "ガクセイ", u "ガクセイ",
                  u "ガ" ++ NASAL ++ OVERLINE_OPEN ++ NOPRON_OPEN ++ u "ク" ++ SPAN_CLOSE
                  ++ u "セイ" ++ SPAN_CLOSE)
       ++ write_row (u "学生", u "ガクセイ",
                     u "ガ" ++ NASAL ++ OVERLINE_OPEN ++ NOPRON_OPEN ++ u "ク" ++ SPAN_CLOSE
                     ++ u "セイ" ++ SPAN_CLOSE)
       ++ write_row (u "アメ", u "アメ",
                     OVERLINE_OPEN ++ u "ア" ++ DOWNSTEP ++ u "メ")
       ++ write_row (u "雨", u "アメ",
                     OVERLINE_OPEN ++ u "ア" ++ DOWNSTEP ++ u "メ")).
Proof. vm_compute. reflexivity. Qed.

Lemma registered_under_absent {V} (regs : list (str * V)) (key : str) :
  ~ In key (map fst regs) -> registered_under key regs = [].
Proof.
  unfold registered_under. induction regs as [|[k v] regs IH]; intros Hno;
    [reflexivity|].
  cbn [filter fst]. destruct (eqb_str k key) eqn:E.
  - apply eqb_str_eq in E. exfalso. apply Hno. left. exact E.
  - apply IH. intros K. apply Hno. right. exact K.
Qed.

(** The loop of the load performs the registrations in order. *)
Lemma read_loop_registers (lines : list str) :
  forall (file_rows : list (str * str * str)) (d : dict (list str)),
    parse_rows lines = Returned file_rows ->
    read_loop d lines = Returned (register_all eqb_str (read_registrations file_rows) d).
Proof.
  unfold parse_rows.
  induction lines as [|line lines IH]; intros file_rows d E.
  - cbn in E. injection E as <-. reflexivity.
  - cbn [mapM] in E. unfold bind in E.
    destruct (unpack3 (split_on (ch "009") (strip line))) as [[[w k] h]|] eqn:U;
      [|discriminate].
    destruct (mapM _ lines) as [rs|] eqn:M; [|discriminate].
    injection E as <-.
    cbn [read_loop]. unfold bind. rewrite U.
    rewrite (IH rs _ eq_refl). reflexivity.
Qed.

(** C9 (amended): loading a file whose every line strips and splits on TAB
    into three fields returns a dictionary in which every word and every kana
    of the file is a key, in first-seen order, and a key maps to the html
    strings registered under it, in first-seen order and without repetition:
    a list of html strings, not of (katakana, html) pairs.  A key that the
    file does not hold yields the empty list. *)
Theorem read_derivative_spec (lines : list str) (file_rows : list (str * str * str)) :
  parse_rows lines = Returned file_rows ->
  exists d,
    read_derivative lines = Returned d
    /\ dict_keys d = dedup eqb_str (map fst (read_registrations file_rows))
    /\ (forall key,
          dict_get_default d key []
          = dedup eqb_str (registered_under key (read_registrations file_rows)))
    /\ (forall key, NoDup (dict_get_default d key []))
    /\ (forall key, ~ In key (map fst (read_registrations file_rows)) ->
                    dict_get_default d key [] = []).
Proof.
  intros Hparse.
  exists (register_all eqb_str (read_registrations file_rows) []).
  destruct (register_all_spec eqb_str eqb_str_eq (read_registrations file_rows))
    as [Hk Hg].
  split; [apply read_loop_registers; exact Hparse|].
  split; [exact Hk|]. split; [exact Hg|]. split.
  - intros key. rewrite Hg. apply (dedup_NoDup eqb_str eqb_str_eq).
  - intros key Hno. rewrite Hg, (registered_under_absent _ _ Hno). reflexivity.
Qed.

Lemma read_derivative_spec_witness :
  exists d,
    read_derivative sample_derivative = Returned d
    /\ dict_keys d = dedup eqb_str (map fst (read_registrations sample_rows))
    /\ (forall key,
          dict_get_default d key []
          = dedup eqb_str (registered_under key (read_registrations sample_rows)))
    /\ (forall key, NoDup (dict_get_default d key []))
    /\ (forall key, ~ In key (map fst (read_registrations sample_rows)) ->
                    dict_get_default d key [] = []).
Proof.
  apply (read_derivative_spec sample_derivative sample_rows).
  vm_compute. reflexivity.
Defined.

(** C9 as stated fails: the file holds two distinct (katakana, html) pairs
    for the word, and looking the word up gives one html string. *)
Lemma read_derivative_spec_counterexample :
  variant_pairs (u "k") sample_rows = [(u "A", u "h"); (u "B", u "h")]
  /\ exists d,
       read_derivative sample_derivative = Returned d
       /\ dict_get_default d (u "k") [] = [u "h"]
       /\ map snd (variant_pairs (u "k") sample_rows) <> dict_get_default d (u "k") [].
Proof.
  split; [vm_compute; reflexivity|].
  eexists. split; [vm_compute; reflexivity|].
  split; [vm_compute; reflexivity|]. vm_compute. discriminate.
Qed.

(* ====================================================================== *)
(** ** make_accent_entry *)
(* ====================================================================== *)

Ltac fields_case :=
  split;
  [ let H := fresh in
    intros H; first [discriminate H | eexists; split; reflexivity]
  | let H := fresh in
    intros H; first [reflexivity | exfalso; apply H; reflexivity] ].

(** Nineteen fields make an entry, in field order; any other number is a
    [TypeError]. *)
Lemma AccentEntry_of_fields_spec (fields : list str) :
  (length fields = 19%nat ->
   exists e, AccentEntry_of_fields fields = Returned e /\ fields_of_AccentEntry e = fields)
  /\ (length fields <> 19%nat -> AccentEntry_of_fields fields = Raised TypeError).
Proof.
  do 19 (destruct fields as [|? fields]; [fields_case|]).
  destruct fields; fields_case.
Qed.

(** The parser fails exactly when the escaped line does not split on commas
    into nineteen fields, and otherwise returns those fields in order. *)
Lemma make_accent_entry_fields (csv_line : str) :
  let fields := split_on (ch ",") (escape_sub_entries (strip csv_line)) in
  (length fields = 19%nat ->
   exists e, make_accent_entry csv_line = Returned e /\ fields_of_AccentEntry e = fields)
  /\ (length fields <> 19%nat -> make_accent_entry csv_line = Raised TypeError).
Proof. apply AccentEntry_of_fields_spec. Qed.

(** A field that is a parenthesis group with a comma stays one field. *)
Example make_accent_entry_simple_group :
  escape_sub_entries (u "(a,b)") = u "(a;b)"
  /\ exists e, make_accent_entry simple_group_line = Returned e /\ ID e = u "(a;b)".
Proof.
  split; [vm_compute; reflexivity|].
  eexists. split; vm_compute; reflexivity.
Qed.

(** C6: the code does not keep every group with an internal comma in one
    field.  The matches of both patterns are taken from the line as read and
    replaced one after the other: once the brace group inside a parenthesis
    group is rewritten, the parenthesis match no longer occurs in the line, and
    its own comma stays.  The line of nineteen fields then splits into twenty
    and is rejected, while the same line with the commas of the group already
    replaced is accepted.  A lazy match also runs from a brace group without a
    comma to the end of a later one and joins the fields between them. *)
Theorem make_accent_entry_nested_group :
  escape_sub_entries (u "(x,{a,b})") = u "(x,{a;b})"
  /\ length (split_on (ch ",") (escape_sub_entries nested_group_line)) = 20%nat
  /\ make_accent_entry nested_group_line = Raised TypeError
  /\ (exists e, make_accent_entry nested_group_line_escaped = Returned e
                /\ ID e = u "(x;{a;b})")
  /\ escape_sub_entries (u "{a},1,{c,d}") = u "{a};1;{c;d}"
  /\ make_accent_entry two_groups_line = Raised TypeError.
Proof.
  split; [vm_compute; reflexivity|].
  split; [vm_compute; reflexivity|].
  split; [vm_compute; reflexivity|].
  split; [eexists; split; vm_compute; reflexivity|].
  split; vm_compute; reflexivity.
Qed.

(* ====================================================================== *)
(** ** Further properties of the furigana parser *)
(* ====================================================================== *)

(** A head without a closing bracket and a reading without brackets are
    found again by the parser, provided the head is not empty. *)
Lemma find_head_reading_suffix_wellformed (h r s : str) :
  h <> [] -> ~ In (ch "]") h -> ~ In (ch "[") r -> ~ In (ch "]") r ->
  find_head_reading_suffix (annotate h r s)
  = Split {| head := h; reading := r; suffix := s |}.
Proof.
  intros Hne Hh Hr1 Hr2.
  unfold find_head_reading_suffix. rewrite scan_annotate by assumption.
  pose proof (len_nonneg r) as Lr.
  assert (Lh : 0 < len h)
    by (destruct h; [congruence | rewrite len_cons; pose proof (len_nonneg h); lia]).
  destruct (0 <? len h) eqn:G1; [|apply Z.ltb_ge in G1; lia].
  destruct (len h <? len h + 1 + len r) eqn:G2; [|apply Z.ltb_ge in G2; lia].
  cbn [andb]. unfold annotate. f_equal. f_equal.
  - apply slice_prefix.
  - change (h ++ u "[" ++ r ++ u "]" ++ s) with (h ++ [ch "["] ++ r ++ (u "]" ++ s)).
    rewrite (app_assoc h).
    replace (len h + 1) with (len (h ++ [ch "["])) by (rewrite len_app; reflexivity).
    replace (len h + 1 + len r) with (len (h ++ [ch "["]) + len r)
      by (rewrite len_app; reflexivity).
    apply slice_middle.
  - replace (h ++ u "[" ++ r ++ u "]" ++ s) with ((h ++ u "[" ++ r ++ u "]") ++ s)
      by (rewrite <- !app_assoc; reflexivity).
    replace (len h + 1 + len r + 1) with (len (h ++ u "[" ++ r ++ u "]"))
      by (rewrite !len_app; change (len (u "[")) with 1; change (len (u "]")) with 1; lia).
    apply slice_suffix.
Qed.

(** Without an opening bracket the parser finds no furigana. *)
Lemma find_head_reading_suffix_no_open (text : str) :
  ~ In (ch "[") text -> find_head_reading_suffix text = NoFurigana text.
Proof.
  intros H. unfold find_head_reading_suffix.
  destruct (scan_brackets 0 (-1) text) as [s e] eqn:Sc.
  pose proof (scan_no_open_at_all text 0 (-1) H) as K. rewrite Sc in K.
  cbn [fst] in K. subst s. reflexivity.
Qed.

Lemma find_head_reading_suffix_whole (text t : str) :
  find_head_reading_suffix text = NoFurigana t -> text = t.
Proof.
  unfold find_head_reading_suffix.
  destruct (scan_brackets 0 (-1) text) as [s e].
  destruct (_ && _); [discriminate | congruence].
Qed.

(** X1: whatever the text, the parser either returns it whole as
    [NoFurigana], or splits it into a non-empty head without a closing
    bracket, a reading without brackets and a suffix such that
    [head + "[" + reading + "]" + suffix] is the text again. *)
Theorem find_head_reading_suffix_reconstructs (text : str) :
  match find_head_reading_suffix text with
  | NoFurigana t => t = text
  | Split p =>
      text = annotate (head p) (reading p) (suffix p)
      /\ head p <> []
      /\ ~ In (ch "]") (head p)
      /\ ~ In (ch "[") (reading p) /\ ~ In (ch "]") (reading p)
      /\ (length (suffix p) + 3 <= length text)%nat
  end.
Proof.
  destruct (find_head_reading_suffix text) as [p|t] eqn:E.
  - pose proof (find_head_reading_suffix_split text p E) as (Ht & Hne & H1 & H2 & H3).
    repeat (split; [assumption|]).
    rewrite Ht. unfold annotate. rewrite !length_app.
    change (length (u "[")) with 1%nat. change (length (u "]")) with 1%nat.
    destruct (head p); [congruence | cbn [length]; lia].
  - symmetry. exact (find_head_reading_suffix_whole text t E).
Qed.

Section Decompose.

Lemma decompose_loop_later (parts : list Part) :
  forall (n m : nat) (bufs : str * str * str),
    decompose_loop (S n) parts bufs = decompose_loop (S m) parts bufs.
Proof.
  induction parts as [|p parts IH]; intros n m bufs; [reflexivity|].
  cbn [decompose_loop]. rewrite (IH (S n) (S m)).
  destruct bufs as [[h r] s]. destruct p; reflexivity.
Qed.

Lemma decompose_loop_acc (parts : list Part) :
  forall (n : nat) (bufs : str * str * str),
    decompose_loop n parts bufs
    = (fst (fst bufs) ++ fst (fst (decompose_loop n parts ([], [], []))),
       snd (fst bufs) ++ snd (fst (decompose_loop n parts ([], [], []))),
       snd bufs ++ snd (decompose_loop n parts ([], [], []))).
Proof.
  induction parts as [|p parts IH]; intros n bufs.
  - destruct bufs as [[h0 r0] s0]. cbn. rewrite !app_nil_r. reflexivity.
  - cbn [decompose_loop].
    rewrite (IH (S n) (decompose_step bufs n p)).
    rewrite (IH (S n) (decompose_step ([], [], []) n p)).
    destruct (decompose_loop (S n) parts ([], [], [])) as [[h2 r2] s2].
    destruct bufs as [[h0 r0] s0].
    destruct p as [q|t]; [|destruct n]; cbn [decompose_step fst snd app part_head part_reading];
      rewrite <- ?app_assoc, ?app_nil_r; reflexivity.
Qed.

End Decompose.

Lemma decompose_word_whole (text : str) :
  find_head_reading_suffix text = NoFurigana text ->
  decompose_word text = {| head := text; reading := text; suffix := [] |}.
Proof.
  intros E. unfold decompose_word. rewrite iter_split_parts_step.
  destruct text as [|c text]; [reflexivity|].
  rewrite E. reflexivity.
Qed.

(** X2: when the parser finds no furigana in a text, [decompose_word]
    returns the text as the head and as the reading, with an empty suffix. *)
Theorem decompose_word_no_furigana (text : str) :
  find_head_reading_suffix text = NoFurigana text ->
  decompose_word text = {| head := text; reading := text; suffix := [] |}.
Proof. exact (decompose_word_whole text). Qed.

Lemma decompose_word_no_furigana_witness :
  decompose_word (u "ひらがな")
  = {| head := u "ひらがな"; reading := u "ひらがな"; suffix := [] |}.
Proof.
  apply (decompose_word_no_furigana (u "ひらがな")). vm_compute. reflexivity.
Defined.

(** The parts after a first group. *)
Lemma decompose_after_group (h r rest : str) :
  decompose_loop 1 (iter_split_parts rest) (h, r, [])
  = match find_head_reading_suffix rest with
    | Split _ =>
        (h ++ head (decompose_word rest), r ++ reading (decompose_word rest),
         suffix (decompose_word rest))
    | NoFurigana _ => (h, r, rest)
    end.
Proof.
  unfold decompose_word. rewrite (iter_split_parts_step rest).
  destruct rest as [|c rest]; [reflexivity|].
  destruct (find_head_reading_suffix (c :: rest)) as [p|t] eqn:E.
  - cbn [decompose_loop decompose_step part_head part_reading app].
    rewrite (decompose_loop_later _ 1 0).
    etransitivity; [apply decompose_loop_acc|].
    match goal with
    | |- context [decompose_loop 1 ?ps ?bufs] =>
        lazymatch bufs with
        | context [head p] => rewrite (decompose_loop_acc ps 1 bufs)
        end
    end.
    destruct (decompose_loop 1 (iter_split_parts (suffix p)) ([], [], []))
      as [[h1 r1] s1].
    cbn [fst snd head reading suffix app]. rewrite <- !app_assoc. reflexivity.
  - rewrite <- (find_head_reading_suffix_whole _ _ E). reflexivity.
Qed.

Lemma decompose_word_group (h r rest : str) :
  h <> [] -> ~ In (ch "]") h -> ~ In (ch "[") r -> ~ In (ch "]") r ->
  decompose_word (annotate h r rest)
  = match find_head_reading_suffix rest with
    | Split _ =>
        {| head := h ++ head (decompose_word rest);
           reading := r ++ reading (decompose_word rest);
           suffix := suffix (decompose_word rest) |}
    | NoFurigana _ => {| head := h; reading := r; suffix := rest |}
    end.
Proof.
  intros Hne Hh Hr1 Hr2.
  assert (P : iter_split_parts (annotate h r rest)
              = Split {| head := h; reading := r; suffix := rest |}
                  :: iter_split_parts rest).
  { rewrite iter_split_parts_step.
    rewrite find_head_reading_suffix_wellformed by assumption.
    destruct h; [congruence | reflexivity]. }
  unfold decompose_word at 1. rewrite P.
  cbn [decompose_loop decompose_step part_head part_reading head reading app].
  match goal with
  | |- context [decompose_loop 1 ?ps ?b] =>
      replace (decompose_loop 1 ps b)
        with (match find_head_reading_suffix rest with
              | Split _ =>
                  (h ++ head (decompose_word rest), r ++ reading (decompose_word rest),
                   suffix (decompose_word rest))
              | NoFurigana _ => (h, r, rest)
              end)
        by (symmetry; apply decompose_after_group)
  end.
  destruct (find_head_reading_suffix rest); reflexivity.
Qed.

(** X3: a well-formed first group [head[reading]] in front of any text:
    when the parser finds a further group in the rest, the head and the
    reading are prepended to those of the rest and the suffix is that of the
    rest; otherwise the whole rest is the suffix. *)
Theorem decompose_word_annotate (h r rest : str) :
  h <> [] -> ~ In (ch "]") h -> ~ In (ch "[") r -> ~ In (ch "]") r ->
  decompose_word (annotate h r rest)
  = match find_head_reading_suffix rest with
    | Split _ =>
        {| head := h ++ head (decompose_word rest);
           reading := r ++ reading (decompose_word rest);
           suffix := suffix (decompose_word rest) |}
    | NoFurigana _ => {| head := h; reading := r; suffix := rest |}
    end.
Proof. exact (decompose_word_group h r rest). Qed.

Lemma decompose_word_annotate_witness :
  decompose_word (annotate (u "南") (u "みなみ") (u "千[ち]秋[あき]"))
  = {| head := u "南" ++ head (decompose_word (u "千[ち]秋[あき]"));
       reading := u "みなみ" ++ reading (decompose_word (u "千[ち]秋[あき]"));
       suffix := suffix (decompose_word (u "千[ち]秋[あき]")) |}.
Proof.
  refine (eq_trans
            (decompose_word_annotate (u "南") (u "みなみ") (u "千[ち]秋[あき]") _ _ _ _) _).
  - discriminate.
  - vm_compute. intuition discriminate.
  - vm_compute. intuition discriminate.
  - vm_compute. intuition discriminate.
  - vm_compute. reflexivity.
Defined.

(* ====================================================================== *)
(** ** Further properties of the tokenizer *)
(* ====================================================================== *)

Lemma tie_go_pointwise (s : str) :
  forall inside : bool,
    Forall2 (fun a b => b = a \/ (a = ch " " /\ [b] = MULTIPLE_READING_SEP))
            s (tie_go inside s).
Proof.
  induction s as [|c s IH]; intros inside; [constructor|].
  cbn [tie_go]. destruct inside.
  - destruct (N.eqb c (ch "]")); [constructor; auto|].
    destruct (N.eqb c (ch " ")) eqn:E.
    + apply N.eqb_eq in E. subst c.
      change (MULTIPLE_READING_SEP ++ tie_go true s) with (12539%N :: tie_go true s).
      constructor; [right; split; reflexivity | apply IH].
    + cbn [app]. constructor; auto.
  - constructor; auto.
Qed.

(** X4: [tie_inside_furigana] changes a text character by character: every
    character stays, except that a space may become the separator of
    alternative readings.  So the length and the brackets stay as they are. *)
Theorem tie_inside_furigana_pointwise (s : str) :
  Forall2 (fun a b => b = a \/ (a = ch " " /\ [b] = MULTIPLE_READING_SEP))
          s (tie_inside_furigana s)
  /\ length (tie_inside_furigana s) = length s.
Proof.
  pose proof (tie_go_pointwise s false) as F. split; [exact F|].
  symmetry. unfold tie_inside_furigana.
  induction F; cbn [length]; congruence.
Qed.

Lemma tie_go_no_space (s : str) (inside : bool) :
  ~ In (ch " ") s -> tie_go inside s = s.
Proof.
  intros H. pose proof (tie_go_pointwise s inside) as F.
  induction F as [|a b s t R F IH]; [reflexivity|].
  f_equal.
  - destruct R as [->|[-> _]]; [reflexivity|]. exfalso. apply H. left. reflexivity.
  - apply IH. intros K. apply H. right. exact K.
Qed.

Lemma tie_go_no_open (s : str) : ~ In (ch "[") s -> tie_go false s = s.
Proof.
  induction s as [|c s IH]; intros H; [reflexivity|].
  cbn [tie_go]. f_equal.
  replace (N.eqb c (ch "[")) with false.
  - cbn [andb]. apply IH. intros K. apply H. right. exact K.
  - symmetry. apply N.eqb_neq. intros ->. apply H. left. reflexivity.
Qed.

(** Inside a group: up to the closing bracket every space is replaced. *)
Lemma tie_go_inside (r rest : str) :
  ~ In (ch "]") r ->
  tie_go true (r ++ ch "]" :: rest)
  = flat_map (fun c => if N.eqb c (ch " ") then MULTIPLE_READING_SEP else [c]) r
    ++ ch "]" :: tie_go false rest.
Proof.
  induction r as [|c r IH]; intros H.
  - cbn. reflexivity.
  - cbn [app tie_go flat_map].
    replace (N.eqb c (ch "]")) with false
      by (symmetry; apply N.eqb_neq; intros ->; apply H; left; reflexivity).
    rewrite IH by (intros K; apply H; right; exact K).
    rewrite <- app_assoc. reflexivity.
Qed.

Lemma closes_group_run (r rest : str) (seen : bool) :
  ~ In (ch "[") r -> ~ In (ch "]") r ->
  closes_group seen (r ++ ch "]" :: rest) = match r with [] => seen | _ => true end.
Proof.
  revert seen; induction r as [|c r IH]; intros seen H1 H2.
  - reflexivity.
  - cbn [app closes_group].
    replace (N.eqb c (ch "]")) with false
      by (symmetry; apply N.eqb_neq; intros ->; apply H2; left; reflexivity).
    replace (N.eqb c (ch "[")) with false
      by (symmetry; apply N.eqb_neq; intros ->; apply H1; left; reflexivity).
    rewrite IH by (intros K; (apply H1 + apply H2); right; exact K).
    destruct r; reflexivity.
Qed.

(** A group after a stretch without an opening bracket. *)
Lemma tie_group (pre r rest : str) :
  ~ In (ch "[") pre -> r <> [] -> ~ In (ch "[") r -> ~ In (ch "]") r ->
  tie_inside_furigana (annotate pre r rest)
  = annotate pre
      (flat_map (fun c => if N.eqb c (ch " ") then MULTIPLE_READING_SEP else [c]) r)
      (tie_inside_furigana rest).
Proof.
  intros Hp Hne H1 H2. unfold tie_inside_furigana, annotate.
  change (u "[" ++ r ++ u "]" ++ rest) with (ch "[" :: r ++ ch "]" :: rest).
  induction pre as [|c pre IH].
  - cbn [app tie_go]. change (N.eqb (ch "[") (ch "[")) with true.
    rewrite closes_group_run by assumption. cbn [andb].
    replace (match r with [] => false | _ :: _ => true end) with true
      by (destruct r; [congruence | reflexivity]).
    rewrite tie_go_inside by assumption. reflexivity.
  - cbn [app tie_go].
    replace (N.eqb c (ch "[")) with false
      by (symmetry; apply N.eqb_neq; intros ->; apply Hp; left; reflexivity).
    cbn [andb]. rewrite IH by (intros K; apply Hp; right; exact K). reflexivity.
Qed.

Section SplitWs.

Lemma split_ws_go_tokens (s : str) :
  forall cur : str,
    (forall c, In c cur -> isspace c = false) ->
    Forall (fun t => t <> [] /\ forall c, In c t -> isspace c = false)
           (split_ws_go cur s)
    /\ concat (split_ws_go cur s) = rev cur ++ filter (fun c => negb (isspace c)) s.
Proof.
  induction s as [|c s IH]; intros cur Hcur.
  - cbn [split_ws_go filter]. rewrite app_nil_r. destruct cur as [|x cur].
    + split; [constructor | reflexivity].
    + split.
      * constructor; [|constructor]. split.
        -- intros K. apply (f_equal (@length _)) in K.
           rewrite length_rev in K. discriminate.
        -- intros c Hc. apply Hcur. apply in_rev. exact Hc.
      * cbn [concat]. apply app_nil_r.
  - cbn [split_ws_go filter]. destruct (isspace c) eqn:E; cbn [negb].
    + destruct (IH [] ltac:(intros ? [])) as [F C]. cbn [rev app] in C.
      destruct cur as [|x cur].
      * split; [exact F | exact C].
      * split.
        -- constructor; [|exact F]. split.
           ++ intros K. apply (f_equal (@length _)) in K.
              rewrite length_rev in K. discriminate.
           ++ intros d Hd. apply Hcur. apply in_rev. exact Hd.
        -- cbn [concat]. rewrite C. reflexivity.
    + destruct (IH (c :: cur)) as [F C].
      { intros d [<-|Hd]; [exact E | apply Hcur; exact Hd]. }
      split; [exact F|]. rewrite C. cbn [rev]. rewrite <- app_assoc. reflexivity.
Qed.

Lemma split_ws_go_single (s : str) :
  forall cur : str,
    (forall c, In c s -> isspace c = false) ->
    rev cur ++ s <> [] ->
    split_ws_go cur s = [rev cur ++ s].
Proof.
  induction s as [|c s IH]; intros cur Hs Hne.
  - cbn [split_ws_go]. rewrite app_nil_r in *.
    destruct cur; [exfalso; apply Hne; reflexivity | reflexivity].
  - cbn [split_ws_go]. rewrite (Hs c (or_introl eq_refl)).
    rewrite IH.
    + cbn [rev]. rewrite <- app_assoc. reflexivity.
    + intros d Hd. apply Hs. right. exact Hd.
    + cbn [rev]. rewrite <- app_assoc. cbn [app].
      intros K. apply app_eq_nil in K. destruct K as [_ K]. discriminate.
Qed.

End SplitWs.

(** X5: the tokens of [whitespace_split] are never empty and hold no
    whitespace, and put together they are the text, after the tying of the
    groups, with its whitespace removed. *)
Theorem whitespace_split_tokens (furigana_notation : str) :
  Forall (fun t => t <> [] /\ forall c, In c t -> isspace c = false)
         (whitespace_split furigana_notation)
  /\ concat (whitespace_split furigana_notation)
     = filter (fun c => negb (isspace c)) (tie_inside_furigana furigana_notation).
Proof.
  unfold whitespace_split, split_ws.
  destruct (split_ws_go_tokens (tie_inside_furigana furigana_notation) []
              ltac:(intros ? [])) as [F C].
  split; [exact F | exact C].
Qed.

Lemma whitespace_split_plain (text : str) :
  text <> [] -> (forall c, In c text -> isspace c = false) ->
  whitespace_split text = [text].
Proof.
  intros Hne Hs. unfold whitespace_split, tie_inside_furigana.
  rewrite tie_go_no_space.
  - unfold split_ws. rewrite split_ws_go_single; auto.
  - intros K. specialize (Hs _ K). discriminate.
Qed.

(** X6: a token whose group holds spaces is not split there: with a head and
    a suffix free of whitespace and of opening brackets, and a non-empty
    reading free of brackets whose only whitespace is the space,
    [whitespace_split] returns the one token, its spaces replaced by the
    separator of alternative readings. *)
Theorem whitespace_split_group (h r sfx : str) :
  (forall c, In c h -> isspace c = false /\ c <> ch "[") ->
  r <> [] ->
  (forall c, In c r -> c <> ch "[" /\ c <> ch "]" /\ (isspace c = true -> c = ch " ")) ->
  (forall c, In c sfx -> isspace c = false /\ c <> ch "[") ->
  whitespace_split (annotate h r sfx)
  = [annotate h
       (flat_map (fun c => if N.eqb c (ch " ") then MULTIPLE_READING_SEP else [c]) r)
       sfx].
Proof.
  intros Hh Hne Hr Hs. unfold whitespace_split.
  rewrite tie_group.
  - unfold tie_inside_furigana at 1.
    rewrite tie_go_no_open by (intros K; apply (proj2 (Hs _ K)); reflexivity).
    unfold split_ws. rewrite split_ws_go_single.
    + reflexivity.
    + unfold annotate. intros c Hc.
      repeat (apply in_app_or in Hc; destruct Hc as [Hc|Hc]).
      * apply (Hh _ Hc).
      * destruct Hc as [<-|[]]. reflexivity.
      * apply in_flat_map in Hc. destruct Hc as (x & Hx & Hc).
        destruct (N.eqb x (ch " ")) eqn:E.
        -- destruct Hc as [<-|[]]. reflexivity.
        -- destruct Hc as [<-|[]].
           destruct (isspace x) eqn:S; [|reflexivity].
           apply (Hr _ Hx) in S. subst x. discriminate.
      * destruct Hc as [<-|[]]. reflexivity.
      * apply (Hs _ Hc).
    + cbn [rev app]. unfold annotate. intros K.
      apply app_eq_nil in K. destruct K as [_ K]. discriminate.
  - intros K. apply (proj2 (Hh _ K)). reflexivity.
  - exact Hne.
  - intros K. apply (proj1 (Hr _ K)). reflexivity.
  - intros K. apply (proj1 (proj2 (Hr _ K))). reflexivity.
Qed.

Lemma whitespace_split_group_witness :
  whitespace_split (annotate (u "前") (u "まい まえ めえ") [])
  = [annotate (u "前")
       (flat_map (fun c => if N.eqb c (ch " ") then MULTIPLE_READING_SEP else [c])
                 (u "まい まえ めえ"))
       []].
Proof.
  apply (whitespace_split_group (u "前") (u "まい まえ めえ") []).
  - intros c [<-|[]]. split; [reflexivity | discriminate].
  - discriminate.
  - intros c Hc. vm_compute in Hc.
    repeat (destruct Hc as [<-|Hc];
            [split; [discriminate | split; [discriminate | intros K; first [reflexivity | discriminate K]]]|]).
    destruct Hc.
  - intros c [].
Defined.

(* ====================================================================== *)
(** ** Further properties of word_reading and mingle_readings *)
(* ====================================================================== *)

Lemma whitespace_split_chars (text t : str) (c : char) :
  ~ In (ch "[") text -> In t (whitespace_split text) -> In c t -> In c text.
Proof.
  intros Ho Ht Hc. unfold whitespace_split, tie_inside_furigana, split_ws in Ht.
  rewrite tie_go_no_open in Ht by exact Ho.
  destruct (split_ws_go_tokens text [] ltac:(intros ? [])) as [_ C].
  cbn [rev app] in C.
  assert (K : In c (concat (split_ws_go [] text))).
  { apply in_concat. exists t. split; assumption. }
  rewrite C in K. apply filter_In in K. exact (proj1 K).
Qed.

(** X7: a text without an opening bracket has no furigana to show:
    [word_reading] returns the text itself, whitespace included, with the
    empty reading. *)
Theorem word_reading_plain (text : str) :
  ~ In (ch "[") text ->
  word_reading text = {| word := text; reading_of_word := [] |}.
Proof.
  intros Ho. unfold word_reading, word_parts.
  rewrite (map_ext_in decompose_word
             (fun t => {| head := t; reading := t; suffix := [] |})).
  - rewrite !map_map. cbn [head reading suffix].
    rewrite eqb_str_refl. cbn [negb]. rewrite andb_false_r. reflexivity.
  - intros t Ht. apply decompose_word_whole.
    apply find_head_reading_suffix_no_open.
    intros K. apply Ho. exact (whitespace_split_chars text t _ Ho Ht K).
Qed.

Lemma word_reading_plain_witness :
  word_reading (u "もう お金が ない") = {| word := u "もう お金が ない"; reading_of_word := [] |}.
Proof.
  apply (word_reading_plain (u "もう お金が ない")).
  vm_compute. intuition discriminate.
Defined.

(** X8: one annotated token [head[reading]suffix] free of whitespace, with
    a reading free of brackets and a suffix without an opening bracket, gives
    the word [head + suffix] and the reading [reading + suffix], unless that
    reading is empty or equal to the word. *)
Theorem word_reading_token (h r s : str) :
  h <> [] ->
  (forall c, In c h -> isspace c = false /\ c <> ch "]") ->
  (forall c, In c r -> isspace c = false /\ c <> ch "[" /\ c <> ch "]") ->
  (forall c, In c s -> isspace c = false /\ c <> ch "[") ->
  r ++ s <> [] -> h <> r ->
  word_reading (annotate h r s) = {| word := h ++ s; reading_of_word := r ++ s |}.
Proof.
  intros Hne Hh Hr Hs Hrs Hhr. unfold word_reading, word_parts.
  rewrite whitespace_split_plain.
  - cbn [map concat]. rewrite decompose_word_group.
    + rewrite find_head_reading_suffix_no_open
        by (intros K; apply (proj2 (Hs _ K)); reflexivity).
      cbn [head reading suffix]. rewrite !app_nil_r.
      apply eqb_str_neq in Hrs. rewrite Hrs.
      assert (D : h ++ s <> r ++ s) by (intros K; apply app_inv_tail in K; auto).
      apply eqb_str_neq in D. rewrite D. reflexivity.
    + exact Hne.
    + intros K. apply (proj2 (Hh _ K)). reflexivity.
    + intros K. apply (proj1 (proj2 (Hr _ K))). reflexivity.
    + intros K. apply (proj2 (proj2 (Hr _ K))). reflexivity.
  - unfold annotate. destruct h; [congruence | discriminate].
  - unfold annotate. intros c Hc.
    repeat (apply in_app_or in Hc; destruct Hc as [Hc|Hc]).
    + apply (Hh _ Hc).
    + destruct Hc as [<-|[]]. reflexivity.
    + apply (Hr _ Hc).
    + destruct Hc as [<-|[]]. reflexivity.
    + apply (Hs _ Hc).
Qed.

Lemma word_reading_token_witness :
  word_reading (annotate (u "辛") (u "から") (u "い"))
  = {| word := u "辛" ++ u "い"; reading_of_word := u "から" ++ u "い" |}.
Proof.
  apply (word_reading_token (u "辛") (u "から") (u "い")).
  - discriminate.
  - intros c [<-|[]]. split; [reflexivity | discriminate].
  - intros c [<-|[<-|[]]]; (split; [reflexivity | split; discriminate]).
  - intros c [<-|[]]. split; [reflexivity | discriminate].
  - discriminate.
  - discriminate.
Defined.

Section DedupMore.

Context {A : Type} (eqb : A -> A -> bool).
Hypothesis eqb_spec : forall a b, eqb a b = true <-> a = b.

Lemma dedup_app_seen (l : list A) (y : A) :
  In y l -> dedup eqb (l ++ [y]) = dedup eqb l.
Proof.
  intros H.
  rewrite <- (fold_append_new_nil eqb eqb_spec (l ++ [y])).
  rewrite fold_left_app. cbn [fold_left].
  rewrite (fold_append_new_nil eqb eqb_spec l).
  replace (existsb (eqb y) (dedup eqb l)) with true; [reflexivity|].
  symmetry. apply (existsb_eqb_In eqb eqb_spec). apply (dedup_In eqb eqb_spec). exact H.
Qed.

End DedupMore.

(** The result when every notation splits into [n] tokens. *)
Lemma mingle_readings_aligned (sep : str) (ws : list str) (n : nat) :
  (2 <= length ws)%nat ->
  (forall a, In a (map whitespace_split ws) -> length a = n) ->
  mingle_readings sep ws
  = Returned (concat (map (fun p => mingled_token sep (column p (map whitespace_split ws)))
                          (seq 0 n))).
Proof.
  intros Hlen Hn. unfold mingle_readings.
  destruct (1 <? Z.of_nat (length ws)) eqn:G; [|apply Z.ltb_ge in G; lia].
  cbn [negb].
  replace (existsb _ (pairs (map whitespace_split ws))) with false.
  - f_equal. f_equal.
    rewrite <- (map_map (fun p => column p (map whitespace_split ws)) (mingled_token sep)).
    rewrite <- (zip_star_columns (map whitespace_split ws) n).
    + rewrite map_map. apply map_ext. intros c. apply mingle_pack_token.
    + destruct ws; [cbn in Hlen; lia | discriminate].
    + exact Hn.
  - symmetry. apply pairs_same_length. intros a b Ha Hb.
    rewrite (Hn a Ha), (Hn b Hb). reflexivity.
Qed.

Lemma mingled_token_repeated (sep : str) (tokens : list str) (t : str) :
  In t tokens -> mingled_token sep (tokens ++ [t]) = mingled_token sep tokens.
Proof.
  intros H. unfold mingled_token.
  replace (hd [] (tokens ++ [t])) with (hd [] tokens)
    by (destruct tokens; [destruct H | reflexivity]).
  rewrite map_app. cbn [map].
  rewrite (dedup_app_seen eqb_str eqb_str_eq); [reflexivity|].
  apply in_map_iff. exists t. auto.
Qed.

(** X9: a notation that is already in the list changes nothing when it is
    given once more at the end. *)
Theorem mingle_readings_repeated (sep : str) (ws : list str) (w : str) :
  (2 <= length ws)%nat -> In w ws ->
  mingle_readings sep (ws ++ [w]) = mingle_readings sep ws.
Proof.
  intros Hlen Hw.
  assert (Hlen' : (2 <= length (ws ++ [w]))%nat) by (rewrite length_app; lia).
  set (split := map whitespace_split ws).
  assert (Hsplit : map whitespace_split (ws ++ [w]) = split ++ [whitespace_split w])
    by (rewrite map_app; reflexivity).
  assert (Hin : In (whitespace_split w) split) by (apply in_map; exact Hw).
  destruct (existsb (fun xy : list str * list str =>
                       negb (Nat.eqb (length (fst xy)) (length (snd xy))))
                    (pairs split)) eqn:E.
  - (* some notation splits differently: both calls return the first one *)
    unfold mingle_readings.
    destruct (1 <? Z.of_nat (length ws)) eqn:G; [|apply Z.ltb_ge in G; lia].
    destruct (1 <? Z.of_nat (length (ws ++ [w]))) eqn:G';
      [|apply Z.ltb_ge in G'; lia].
    cbn [negb]. fold split. rewrite E, Hsplit.
    replace (existsb _ (pairs (split ++ [whitespace_split w]))) with true.
    + destruct ws; [cbn in Hlen; lia | reflexivity].
    + symmetry.
      destruct (existsb _ (pairs (split ++ [whitespace_split w]))) eqn:E';
        [reflexivity|].
      pose proof (proj1 (pairs_same_length _) E') as S.
      assert (K : existsb (fun xy : list str * list str =>
                   negb (Nat.eqb (length (fst xy)) (length (snd xy))))
                   (pairs split) = false).
      { apply pairs_same_length. intros a b Ha Hb.
        apply S; apply in_or_app; left; assumption. }
      congruence.
  - pose proof (proj1 (pairs_same_length _) E) as S.
    set (n := length (whitespace_split w)).
    rewrite (mingle_readings_aligned sep ws n Hlen)
      by (intros a Ha; apply S; assumption).
    rewrite (mingle_readings_aligned sep (ws ++ [w]) n Hlen').
    + f_equal. f_equal. apply map_ext_in. intros p Hp.
      rewrite Hsplit. unfold column at 1. rewrite map_app. cbn [map].
      apply mingled_token_repeated.
      unfold column. apply in_map_iff. exists (whitespace_split w). auto.
    + rewrite Hsplit. intros a Ha. apply in_app_or in Ha.
      destruct Ha as [Ha|[<-|[]]]; [apply S; assumption | reflexivity].
Qed.

Lemma mingle_readings_repeated_witness :
  mingle_readings DEFAULT_SEP
    ([u " 有[あ]り 得[う]る"; u " 有[あ]り 得[え]る"] ++ [u " 有[あ]り 得[え]る"])
  = mingle_readings DEFAULT_SEP [u " 有[あ]り 得[う]る"; u " 有[あ]り 得[え]る"].
Proof.
  apply (mingle_readings_repeated DEFAULT_SEP
           [u " 有[あ]り 得[う]る"; u " 有[あ]り 得[え]る"] (u " 有[あ]り 得[え]る")).
  - cbn. lia.
  - right. left. reflexivity.
Defined.

(* ====================================================================== *)
(** ** Further properties of adjust_reading *)
(* ====================================================================== *)

Lemma getitem_app_r (p q : str) (i : nat) (c : char) :
  nth_error q i = Some c -> getitem (p ++ q) (len p + Z.of_nat i) = Returned c.
Proof.
  intros E. unfold getitem.
  pose proof (len_nonneg p) as Lp.
  assert (Hi : (i < length q)%nat) by (apply nth_error_Some; congruence).
  destruct (len p + Z.of_nat i <? 0) eqn:N; [apply Z.ltb_lt in N; lia|].
  rewrite len_app.
  destruct (0 <=? len p + Z.of_nat i) eqn:B1; [|apply Z.leb_gt in B1; lia].
  destruct (len p + Z.of_nat i <? len p + len q) eqn:B2;
    [|apply Z.ltb_ge in B2; unfold len in B2; lia].
  cbn [andb].
  replace (Z.to_nat (len p + Z.of_nat i)) with (length p + i)%nat
    by (unfold len; lia).
  rewrite nth_error_app2 by lia.
  replace (length p + i - length p)%nat with i by lia.
  rewrite E. reflexivity.
Qed.

Lemma Forall2_nth_error {A B} (P : A -> B -> Prop) (l : list A) (l' : list B) :
  Forall2 P l l' ->
  length l = length l'
  /\ forall i a, nth_error l i = Some a -> exists b, nth_error l' i = Some b /\ P a b.
Proof.
  induction 1 as [|a b l l' Hab _ [IHl IHn]].
  - split; [reflexivity|]. intros [|i] a H; discriminate.
  - split; [cbn; congruence|].
    intros [|i] a0 H.
    + injection H as <-. exists b. auto.
    + apply IHn. exact H.
Qed.

Section Stem.

Variable normalize : str -> str.

(** The trailing run of a headword and a reading that end in endings agreeing
    character by character, after stems whose last characters disagree. *)
Lemma trailing_run_endings (hstem rstem ending ending' : str) (x y : char) :
  Forall2 (fun a b => normalize [a] = normalize [b]) ending ending' ->
  normalize [x] <> normalize [y] ->
  trailing_run normalize (hstem ++ [x] ++ ending) (rstem ++ [y] ++ ending')
               (len ending).
Proof.
  intros F D. destruct (Forall2_nth_error _ _ _ F) as [L N].
  assert (Lz : len ending' = len ending) by (unfold len; lia).
  split; [apply len_nonneg|]. split.
  - intros j Hj.
    set (i := Z.to_nat (len ending - 1 - j)).
    assert (Hi : (i < length ending)%nat) by (unfold i, len in *; lia).
    destruct (nth_error ending i) as [a|] eqn:Ea;
      [|apply nth_error_None in Ea; lia].
    destruct (N i a Ea) as (b & Eb & Pab).
    exists a, b. split; [|split; [|exact Pab]].
    + replace (len (hstem ++ [x] ++ ending) - 1 - j)
        with (len (hstem ++ [x]) + Z.of_nat i)
        by (rewrite !len_app; unfold i; lia).
      rewrite (app_assoc hstem). apply getitem_app_r. exact Ea.
    + replace (len (rstem ++ [y] ++ ending') - 1 - j)
        with (len (rstem ++ [y]) + Z.of_nat i)
        by (rewrite !len_app, Lz; unfold i; lia).
      rewrite (app_assoc rstem). apply getitem_app_r. exact Eb.
  - exists x, y. split; [|split; [|exact D]].
    + replace (len (hstem ++ [x] ++ ending) - 1 - len ending)
        with (len hstem + Z.of_nat 0)
        by (rewrite !len_app; change (len [x]) with 1; lia).
      apply getitem_app_r. reflexivity.
    + replace (len (rstem ++ [y] ++ ending') - 1 - len ending)
        with (len rstem + Z.of_nat 0)
        by (rewrite !len_app, Lz; change (len [y]) with 1; lia).
      apply getitem_app_r. reflexivity.
Qed.

(** X10: the reading of an inflected form.  When headword and reading end
    in endings that agree character by character once normalized, after stems
    whose last characters disagree, and the raw form is a stem as long as the
    headword's followed by its own ending, then, outside the first two
    branches, the result is the stem of the reading followed by the ending of
    the raw form. *)
Theorem adjust_reading_stem (hstem rstem ending ending' raw_stem infl : str) (x y : char) :
  Forall2 (fun a b => normalize [a] = normalize [b]) ending ending' ->
  normalize [x] <> normalize [y] ->
  length raw_stem = length (hstem ++ [x]) ->
  normalize (hstem ++ [x] ++ ending) <> normalize (rstem ++ [y] ++ ending') ->
  normalize (hstem ++ [x] ++ ending) <> normalize (raw_stem ++ infl) ->
  adjust_reading normalize (raw_stem ++ infl)
                 (hstem ++ [x] ++ ending) (rstem ++ [y] ++ ending')
  = Returned (rstem ++ [y] ++ infl).
Proof.
  intros F D Lraw N1 N2.
  destruct (trailing_run_endings hstem rstem ending ending' x y F D)
    as (Hk & Hmatch & Hdiff).
  destruct (Forall2_nth_error _ _ _ F) as [L _].
  unfold adjust_reading.
  apply eqb_str_neq in N1, N2. rewrite N1, N2.
  destruct (walk_from normalize (hstem ++ [x] ++ ending) (rstem ++ [y] ++ ending')
              (Z.to_nat (len ending)) 0 (len ending) []
              ltac:(lia) ltac:(lia) Hmatch Hdiff) as (tr' & E & _).
  rewrite !Z.sub_0_r in E. rewrite E. cbn [snd]. f_equal.
  rewrite (app_assoc rstem [y] infl). f_equal.
  - rewrite (app_assoc rstem [y] ending').
    replace (len ((rstem ++ [y]) ++ ending') - len ending) with (len (rstem ++ [y]))
      by (rewrite (len_app (rstem ++ [y])); unfold len; lia).
    apply slice_prefix.
  - replace (len (hstem ++ [x] ++ ending) - len ending) with (len raw_stem)
      by (rewrite (app_assoc hstem), (len_app (hstem ++ [x])); unfold len; lia).
    apply slice_suffix.
Qed.

End Stem.

Lemma adjust_reading_stem_witness :
  adjust_reading to_katakana (u "跪" ++ u "いた") ([] ++ u "跪" ++ u "く")
                 (u "ひざま" ++ u "ず" ++ u "く")
  = Returned (u "ひざま" ++ u "ず" ++ u "いた").
Proof.
  apply (adjust_reading_stem to_katakana [] (u "ひざま") (u "く") (u "く")
           (u "跪") (u "いた") 36330%N 12378%N).
  - repeat constructor.
  - vm_compute. discriminate.
  - reflexivity.
  - vm_compute. discriminate.
  - vm_compute. discriminate.
Defined.

(* ====================================================================== *)
(** ** Further properties of the renderer *)
(* ====================================================================== *)

Section SplitJoin.

Variable sep : char.

Lemma split_on_go_app (p : str) :
  forall (cur rest : str),
    ~ In sep p ->
    split_on_go sep cur (p ++ rest) = split_on_go sep (rev p ++ cur) rest.
Proof.
  induction p as [|c p IH]; intros cur rest H; [reflexivity|].
  cbn [app split_on_go].
  replace (N.eqb c sep) with false
    by (symmetry; apply N.eqb_neq; intros ->; apply H; left; reflexivity).
  rewrite IH by (intros K; apply H; right; exact K).
  cbn [rev]. rewrite <- app_assoc. reflexivity.
Qed.

(** Splitting what was joined gives the parts back, when no part holds the
    separator. *)
Lemma split_on_join (parts : list str) :
  parts <> [] -> Forall (fun p => ~ In sep p) parts ->
  split_on sep (join [sep] parts) = parts.
Proof.
  intros Hne F. unfold split_on.
  induction F as [|p parts Hp F IH]; [exfalso; apply Hne; reflexivity|].
  destruct parts as [|q parts].
  - cbn [join]. rewrite <- (app_nil_r p) at 1.
    rewrite split_on_go_app by exact Hp. cbn. rewrite app_nil_r, rev_involutive.
    reflexivity.
  - change (join [sep] (p :: q :: parts)) with (p ++ sep :: join [sep] (q :: parts)).
    rewrite split_on_go_app by exact Hp.
    cbn [split_on_go]. rewrite N.eqb_refl. rewrite app_nil_r, rev_involutive.
    f_equal. apply IH. discriminate.
Qed.

Lemma join_app_last (parts : list str) (a b : str) :
  join [sep] (parts ++ [a ++ b]) = join [sep] (parts ++ [a]) ++ b.
Proof.
  induction parts as [|p parts IH]; [reflexivity|].
  destruct parts as [|q parts].
  - cbn [app join]. exact (app_assoc p (sep :: a) b).
  - change (join [sep] ((p :: q :: parts) ++ [a ++ b]))
      with (p ++ sep :: join [sep] ((q :: parts) ++ [a ++ b])).
    rewrite IH.
    change (join [sep] ((p :: q :: parts) ++ [a]))
      with (p ++ sep :: join [sep] ((q :: parts) ++ [a])).
    exact (app_assoc p (sep :: join [sep] ((q :: parts) ++ [a])) b).
Qed.

Lemma join_last_char (parts : list str) :
  parts <> [] -> Forall (fun p => p <> [] /\ ~ In sep p) parts ->
  exists z t, rev (join [sep] parts) = z :: t /\ z <> sep.
Proof.
  intros Hne F.
  induction F as [|p parts [Hp1 Hp2] F IH]; [exfalso; apply Hne; reflexivity|].
  destruct parts as [|q parts].
  - cbn [join]. destruct (rev p) as [|z t] eqn:E.
    + apply (f_equal (@length _)) in E. rewrite length_rev in E.
      destruct p; [congruence | discriminate].
    + exists z, t. split; [reflexivity|]. intros ->. apply Hp2.
      apply in_rev. rewrite E. left. reflexivity.
  - change (join [sep] (p :: q :: parts)) with (p ++ sep :: join [sep] (q :: parts)).
    destruct (IH ltac:(discriminate)) as (z & t & E & Hz).
    rewrite rev_app_distr. cbn [rev]. rewrite E.
    exists z, ((t ++ [sep]) ++ rev p). split; [|exact Hz].
    rewrite <- !app_assoc. reflexivity.
Qed.

End SplitJoin.

Lemma slice_drop_last (a b : str) :
  b <> [] -> slice (a ++ b) None (Some (- len b)) = a.
Proof.
  intros Hb. unfold slice, slice_bound.
  pose proof (len_nonneg a).
  assert (0 < len b) by (destruct b; [congruence | rewrite len_cons; pose proof (len_nonneg b); lia]).
  rewrite len_app.
  destruct (- len b <? 0) eqn:E; [|apply Z.ltb_ge in E; lia].
  rewrite Z.max_l by lia. cbn [Z.to_nat skipn].
  replace (Z.to_nat (- len b + (len a + len b) - 0)) with (length a)
    by (unfold len; lia).
  rewrite firstn_app, firstn_all, Nat.sub_diag. cbn [firstn]. apply app_nil_r.
Qed.

Section Positions.

Variable int : str -> result Z.

Lemma mapM_int_values (parts : list str) (values : list Z) :
  Forall2 (fun p v => int p = Returned v) parts values ->
  mapM int parts = Returned values.
Proof.
  induction 1 as [|p v parts values E _ IH]; [reflexivity|].
  cbn [mapM]. unfold bind. rewrite E, IH. reflexivity.
Qed.

Lemma filter_nonempty_parts (parts : list str) (tail : list str) :
  Forall (fun p => p <> []) parts -> Forall (fun p => p = []) tail ->
  filter (fun pos => negb (eqb_str pos [])) (parts ++ tail) = parts.
Proof.
  intros F T. rewrite filter_app.
  replace (filter _ tail) with (@nil str).
  - rewrite app_nil_r. induction F as [|p parts Hp F IH]; [reflexivity|].
    cbn [filter]. destruct p; [congruence|]. cbn [eqb_str negb]. f_equal. exact IH.
  - symmetry. induction T as [|t tail -> T IH]; [reflexivity|]. exact IH.
Qed.

(** X11: decoding a position code.  Position numerals without the digit 0,
    joined by 0, are read back in order; when the code ends with a further
    numeral 10, the position 10 comes first and the others follow. *)
Theorem format_nasal_or_devoiced_positions_decodes (parts : list str) (values : list Z) :
  Forall2 (fun p v => (p <> [] /\ ~ In (ch "0") p) /\ int p = Returned v) parts values ->
  format_nasal_or_devoiced_positions int (join (u "0") parts) = Returned values
  /\ format_nasal_or_devoiced_positions int (join (u "0") (parts ++ [u "10"]))
     = Returned (10 :: values).
Proof.
  intros F.
  assert (F1 : Forall (fun p => p <> [] /\ ~ In (ch "0") p) parts).
  { clear -F. induction F as [|p v ps vs [H _] _ IH]; constructor; assumption. }
  assert (F2 : Forall2 (fun p v => int p = Returned v) parts values).
  { clear -F. induction F as [|p v ps vs [_ H] _ IH]; constructor; assumption. }
  assert (Fne : Forall (fun p : str => p <> []) parts)
    by (eapply Forall_impl; [|exact F1]; intros p H; exact (proj1 H)).
  assert (F0 : Forall (fun p : str => ~ In (ch "0") p) parts)
    by (eapply Forall_impl; [|exact F1]; intros p H; exact (proj2 H)).
  change (u "0") with [ch "0"].
  split.
  - unfold format_nasal_or_devoiced_positions.
    replace (endswith (u "10") (join [ch "0"] parts)) with false.
    + destruct parts as [|p parts].
      * inversion F2. subst. reflexivity.
      * rewrite split_on_join by (assumption || discriminate).
        rewrite <- (app_nil_r (p :: parts)) at 1.
        rewrite filter_nonempty_parts by (assumption || constructor).
        rewrite (mapM_int_values _ _ F2). reflexivity.
    + symmetry. unfold endswith. change (rev (u "10")) with [ch "0"; ch "1"].
      destruct parts as [|p parts]; [reflexivity|].
      destruct (join_last_char (ch "0") (p :: parts) ltac:(discriminate) F1)
        as (z & t & E & Hz).
      rewrite E. cbn [startswith].
      replace (N.eqb (ch "0") z) with false; [reflexivity|].
      symmetry. apply N.eqb_neq. congruence.
  - unfold format_nasal_or_devoiced_positions.
    assert (J : join [ch "0"] (parts ++ [u "10"])
                = join [ch "0"] (parts ++ [[]]) ++ u "10")
      by (apply (join_app_last (ch "0") parts [] (u "10"))).
    rewrite J.
    replace (endswith (u "10") (join [ch "0"] (parts ++ [[]]) ++ u "10")) with true
      by (unfold endswith; rewrite rev_app_distr; reflexivity).
    replace (-2) with (- len (u "10")) by reflexivity.
    rewrite slice_drop_last by discriminate.
    rewrite split_on_join.
    + rewrite filter_nonempty_parts by (first [assumption | repeat constructor]).
      rewrite (mapM_int_values _ _ F2). reflexivity.
    + destruct parts; discriminate.
    + apply Forall_app. split; [exact F0|]. constructor; [intros []|constructor].
Qed.

End Positions.

Lemma format_nasal_or_devoiced_positions_decodes_witness :
  format_nasal_or_devoiced_positions int_str (join (u "0") [u "2"; u "3"])
  = Returned [2; 3]
  /\ format_nasal_or_devoiced_positions int_str (join (u "0") ([u "2"; u "3"] ++ [u "10"]))
     = Returned [10; 2; 3].
Proof.
  apply (format_nasal_or_devoiced_positions_decodes int_str [u "2"; u "3"] [2; 3]).
  repeat constructor; try discriminate; vm_compute; intuition discriminate.
Defined.


Lemma format_step_morae (nasal devoiced : list Z) (flag : bool)
  (idx : Z) (c : char) (acc : Z) :
  morae (fst (format_step nasal devoiced flag idx c acc)) = [c].
Proof.
  unfold format_step.
  destruct (negb flag && (0 <? acc)); destruct (_ && (acc =? 0));
    destruct (Z_in (idx + 1) devoiced), (Z_in (idx + 1) nasal), (acc =? 2);
    reflexivity.
Qed.

Lemma morae_app (a b : list piece) : morae (a ++ b) = morae a ++ morae b.
Proof. unfold morae. apply flat_map_app. Qed.

Section Morae.

Variable int : str -> result Z.

Lemma format_loop_morae (nasal devoiced : list Z) (acc_pattern kana_rest : str) :
  forall (flag : bool) (idx : Z) (pieces : list piece),
    format_loop int nasal devoiced acc_pattern flag idx kana_rest = Returned pieces ->
    morae pieces = kana_rest.
Proof.
  induction kana_rest as [|c rest IH]; intros flag idx pieces E.
  - cbn in E. injection E as <-. destruct flag; reflexivity.
  - cbn [format_loop] in E. unfold bind in E.
    destruct (getitem acc_pattern idx) as [d|]; [|discriminate].
    destruct (int [d]) as [acc|]; [|discriminate].
    pose proof (format_step_morae nasal devoiced flag idx c acc) as M.
    destruct (format_step nasal devoiced flag idx c acc) as [out flag'].
    destruct (format_loop int nasal devoiced acc_pattern flag' (idx + 1) rest)
      as [more|] eqn:R; [|discriminate].
    injection E as <-. cbn [fst] in M.
    rewrite morae_app, M, (IH _ _ _ R). reflexivity.
Qed.

(** X12: the rendering shows every mora of the reading once and in order:
    the characters of the mora pieces are the field
    [katakana_reading_alt]. *)
Theorem format_pieces_morae (e : AccentEntry) (pieces : list piece) :
  format_pieces int e = Returned pieces ->
  morae pieces = katakana_reading_alt e.
Proof.
  unfold format_pieces, bind. intros P.
  destruct (format_nasal_or_devoiced_positions int (nasalsoundpos e)) as [nasal|];
    [|discriminate].
  destruct (format_nasal_or_devoiced_positions int (devoiced_pos e)) as [devoiced|];
    [|discriminate].
  exact (format_loop_morae _ _ _ _ _ _ _ P).
Qed.

(** The loop reads the accent pattern only below the number of morae. *)
Lemma format_loop_pattern_prefix (nasal devoiced : list Z) (pattern extra kana_rest : str) :
  forall (flag : bool) (idx : Z),
    0 <= idx -> idx + len kana_rest <= len pattern ->
    format_loop int nasal devoiced (pattern ++ extra) flag idx kana_rest
    = format_loop int nasal devoiced pattern flag idx kana_rest.
Proof.
  induction kana_rest as [|c rest IH]; intros flag idx H0 H1; [reflexivity|].
  cbn [format_loop]. rewrite len_cons in H1. pose proof (len_nonneg rest).
  assert (G : getitem (pattern ++ extra) idx = getitem pattern idx).
  { unfold getitem. rewrite len_app. pose proof (len_nonneg extra).
    destruct (idx <? 0) eqn:N; [apply Z.ltb_lt in N; lia|].
    destruct (0 <=? idx) eqn:B1; [|apply Z.leb_gt in B1; lia].
    destruct (idx <? len pattern + len extra) eqn:B2; [|apply Z.ltb_ge in B2; lia].
    destruct (idx <? len pattern) eqn:B3; [|apply Z.ltb_ge in B3; lia].
    cbn [andb]. rewrite nth_error_app1 by (unfold len in *; lia). reflexivity. }
  rewrite G. unfold bind.
  destruct (getitem pattern idx) as [d|]; [|reflexivity].
  destruct (int [d]) as [acc|]; [|reflexivity].
  destruct (format_step nasal devoiced flag idx c acc) as [out flag'].
  rewrite IH by lia. reflexivity.
Qed.

(** X13: an accent field shorter than the reading is read as if zeros stood
    in front of it: writing one of them out changes nothing. *)
Theorem format_entry_leading_zero (e : AccentEntry) :
  len (accent e) < len (katakana_reading_alt e) ->
  format_entry int (with_accent e (ch "0" :: accent e)) = format_entry int e.
Proof.
  intros H. unfold format_entry, format_pieces.
  cbn [with_accent katakana_reading_alt accent nasalsoundpos devoiced_pos].
  rewrite len_cons.
  replace (Z.to_nat (len (katakana_reading_alt e) - len (accent e)))
    with (S (Z.to_nat (len (katakana_reading_alt e) - (1 + len (accent e)))))
    by lia.
  replace (repeat (ch "0") (S (Z.to_nat (len (katakana_reading_alt e) - (1 + len (accent e)))))
           ++ accent e)
    with (repeat (ch "0") (Z.to_nat (len (katakana_reading_alt e) - (1 + len (accent e))))
          ++ ch "0" :: accent e);
    [reflexivity|].
  generalize (Z.to_nat (len (katakana_reading_alt e) - (1 + len (accent e)))) as n.
  induction n as [|n IH]; [reflexivity|].
  cbn [repeat app] in *. rewrite IH. reflexivity.
Qed.

(** X14: an accent field at least as long as the reading is read from its
    left end: digits beyond the number of morae are ignored. *)
Theorem format_entry_extra_digits (e : AccentEntry) (extra : str) :
  len (katakana_reading_alt e) <= len (accent e) ->
  format_entry int (with_accent e (accent e ++ extra)) = format_entry int e.
Proof.
  intros H. unfold format_entry, format_pieces.
  cbn [with_accent katakana_reading_alt accent nasalsoundpos devoiced_pos].
  rewrite len_app. pose proof (len_nonneg extra).
  replace (Z.to_nat (len (katakana_reading_alt e) - (len (accent e) + len extra)))
    with 0%nat by lia.
  replace (Z.to_nat (len (katakana_reading_alt e) - len (accent e)))
    with 0%nat by lia.
  cbn [repeat app]. unfold bind.
  destruct (format_nasal_or_devoiced_positions int (nasalsoundpos e)); [|reflexivity].
  destruct (format_nasal_or_devoiced_positions int (devoiced_pos e)); [|reflexivity].
  rewrite format_loop_pattern_prefix by lia. reflexivity.
Qed.

End Morae.

Lemma format_pieces_morae_witness :
  exists e pieces,
    make_accent_entry sample_line = Returned e
    /\ format_pieces int_str e = Returned pieces
    /\ morae pieces = katakana_reading_alt e.
Proof.
  destruct (make_accent_entry sample_line) as [e|] eqn:E; [|vm_compute in E; discriminate].
  destruct (format_pieces int_str e) as [pieces|] eqn:P.
  - exists e, pieces. split; [reflexivity|]. split; [exact P|].
    exact (format_pieces_morae int_str e pieces P).
  - vm_compute in E. injection E as <-. vm_compute in P. discriminate.
Defined.

Lemma format_entry_leading_zero_witness :
  exists e,
    make_accent_entry sample_line = Returned e
    /\ format_entry int_str (with_accent (with_accent e (u "111")) (ch "0" :: u "111"))
       = format_entry int_str (with_accent e (u "111")).
Proof.
  destruct (make_accent_entry sample_line) as [e|] eqn:E; [|vm_compute in E; discriminate].
  exists e. split; [reflexivity|].
  apply (format_entry_leading_zero int_str (with_accent e (u "111"))).
  vm_compute in E. injection E as <-. vm_compute. reflexivity.
Defined.

Lemma format_entry_extra_digits_witness :
  exists e,
    make_accent_entry sample_line = Returned e
    /\ format_entry int_str (with_accent e (accent e ++ u "2"))
       = format_entry int_str e.
Proof.
  destruct (make_accent_entry sample_line) as [e|] eqn:E; [|vm_compute in E; discriminate].
  exists e. split; [reflexivity|].
  apply (format_entry_extra_digits int_str e (u "2")).
  vm_compute in E. injection E as <-. vm_compute. discriminate.
Defined.

(* ====================================================================== *)
(** ** Further properties of the corpus parser and of the derivative file *)
(* ====================================================================== *)

Section Strip.

Lemma lstrip_spaces (t s : str) :
  Forall (fun c => isspace c = true) t -> lstrip (t ++ s) = lstrip s.
Proof.
  induction 1 as [|c t Hc _ IH]; [reflexivity|].
  cbn [app lstrip]. rewrite Hc. exact IH.
Qed.

Lemma lstrip_keeps (s : str) :
  (forall c, hd_error s = Some c -> isspace c = false) -> lstrip s = s.
Proof.
  intros H. destruct s as [|c s]; [reflexivity|].
  cbn [lstrip]. rewrite (H c eq_refl). reflexivity.
Qed.

(** A line without whitespace at either end, followed by whitespace only,
    is stripped to itself. *)
Lemma strip_line (line tail : str) :
  (forall c, hd_error line = Some c -> isspace c = false) ->
  (forall c, hd_error (rev line) = Some c -> isspace c = false) ->
  Forall (fun c => isspace c = true) tail ->
  strip (line ++ tail) = line.
Proof.
  intros H1 H2 T. unfold strip.
  assert (L : lstrip (line ++ tail) = line ++ tail \/ (line = [] /\ lstrip (line ++ tail) = [])).
  { destruct line as [|c line].
    - right. split; [reflexivity|]. cbn [app].
      rewrite <- (app_nil_r tail). rewrite lstrip_spaces by exact T. reflexivity.
    - left. cbn [app lstrip]. rewrite (H1 c eq_refl). reflexivity. }
  destruct L as [L|[-> L]]; rewrite L; [|reflexivity].
  rewrite rev_app_distr.
  rewrite lstrip_spaces by (apply Forall_rev; exact T).
  rewrite lstrip_keeps by exact H2. apply rev_involutive.
Qed.

(** A whitespace character at the end does not survive the stripping. *)
Lemma strip_snoc_space (s : str) (c : char) :
  isspace c = true -> strip (s ++ [c]) = strip s.
Proof.
  intros Hc. unfold strip.
  assert (L : (lstrip (s ++ [c]) = [] /\ lstrip s = [])
              \/ lstrip (s ++ [c]) = lstrip s ++ [c]).
  { induction s as [|x s IH].
    - left. cbn. rewrite Hc. auto.
    - cbn [app lstrip]. destruct (isspace x); [exact IH | right; reflexivity]. }
  destruct L as [[-> ->]| ->]; [reflexivity|].
  rewrite rev_app_distr. cbn [rev app lstrip]. rewrite Hc. reflexivity.
Qed.

End Strip.

Section Count.

Variable sep : char.

Lemma split_on_go_length (s : str) :
  forall cur, length (split_on_go sep cur s) = S (occurrences sep s).
Proof.
  unfold occurrences.
  induction s as [|c s IH]; intros cur; [reflexivity|].
  cbn [split_on_go filter]. rewrite (N.eqb_sym sep c).
  destruct (N.eqb c sep); cbn [length]; rewrite IH; reflexivity.
Qed.

Lemma occurrences_lstrip (s : str) :
  (occurrences sep (lstrip s) <= occurrences sep s)%nat.
Proof.
  unfold occurrences. induction s as [|c s IH]; [apply le_n|].
  cbn [lstrip]. destruct (isspace c); [|apply le_n].
  cbn [filter]. destruct (N.eqb sep c); cbn [length]; lia.
Qed.

Lemma occurrences_app (a b : str) :
  occurrences sep (a ++ b) = (occurrences sep a + occurrences sep b)%nat.
Proof. unfold occurrences. rewrite filter_app, length_app. reflexivity. Qed.

Lemma occurrences_rev (s : str) : occurrences sep (rev s) = occurrences sep s.
Proof.
  induction s as [|c s IH]; [reflexivity|].
  cbn [rev]. rewrite occurrences_app, IH.
  change (c :: s) with ([c] ++ s). rewrite occurrences_app. lia.
Qed.

Lemma occurrences_strip (s : str) :
  (occurrences sep (strip s) <= occurrences sep s)%nat.
Proof.
  unfold strip. rewrite occurrences_rev.
  etransitivity; [apply occurrences_lstrip|]. rewrite occurrences_rev.
  apply occurrences_lstrip.
Qed.

Lemma occurrences_none (s : str) : ~ In sep s -> occurrences sep s = 0%nat.
Proof.
  unfold occurrences. induction s as [|c s IH]; intros H; [reflexivity|].
  cbn [filter].
  replace (N.eqb sep c) with false
    by (symmetry; apply N.eqb_neq; intros ->; apply H; left; reflexivity).
  apply IH. intros K. apply H. right. exact K.
Qed.

End Count.

Section Join.

Variable sep : char.

Lemma in_join (parts : list str) (c : char) :
  In c (join [sep] parts) -> c = sep \/ exists p, In p parts /\ In c p.
Proof.
  induction parts as [|p parts IH]; [intros []|].
  destruct parts as [|q parts].
  - cbn [join]. intros H. right. exists p. split; [left; reflexivity | exact H].
  - change (join [sep] (p :: q :: parts)) with (p ++ sep :: join [sep] (q :: parts)).
    intros H. apply in_app_or in H. destruct H as [H|[H|H]].
    + right. exists p. split; [left; reflexivity | exact H].
    + left. symmetry. exact H.
    + destruct (IH H) as [->|(r & Hr & Hc)]; [left; reflexivity|].
      right. exists r. split; [right; exact Hr | exact Hc].
Qed.

Lemma join_first (p : str) (parts : list str) (c : char) :
  hd_error (join [sep] (p :: parts)) = Some c -> c = sep \/ hd_error p = Some c.
Proof.
  destruct parts as [|q parts].
  - cbn [join]. auto.
  - change (join [sep] (p :: q :: parts)) with (p ++ sep :: join [sep] (q :: parts)).
    destruct p as [|x p]; cbn [app hd_error]; intros [= <-]; auto.
Qed.

Lemma join_last (parts : list str) (c : char) :
  hd_error (rev (join [sep] parts)) = Some c ->
  c = sep \/ hd_error (rev (last parts [])) = Some c.
Proof.
  induction parts as [|p parts IH]; [discriminate|].
  destruct parts as [|q parts].
  - cbn [join last]. auto.
  - change (join [sep] (p :: q :: parts)) with (p ++ sep :: join [sep] (q :: parts)).
    change (last (p :: q :: parts) []) with (last (q :: parts) []).
    rewrite rev_app_distr. cbn [rev]. rewrite <- app_assoc. cbn [app].
    destruct (rev (join [sep] (q :: parts))) as [|z t] eqn:E.
    + cbn [app hd_error]. intros [= <-]. left. reflexivity.
    + cbn [app hd_error]. intros [= <-]. apply IH. reflexivity.
Qed.

Lemma join_last_part (parts : list str) (c : char) :
  hd_error (rev (last parts [])) = Some c ->
  hd_error (rev (join [sep] parts)) = Some c.
Proof.
  induction parts as [|p parts IH]; [discriminate|].
  destruct parts as [|q parts].
  - cbn [join last]. auto.
  - change (join [sep] (p :: q :: parts)) with (p ++ sep :: join [sep] (q :: parts)).
    change (last (p :: q :: parts) []) with (last (q :: parts) []).
    intros H. specialize (IH H).
    rewrite rev_app_distr. cbn [rev]. rewrite <- app_assoc.
    destruct (rev (join [sep] (q :: parts))) as [|z t]; [discriminate|].
    exact IH.
Qed.

End Join.

Lemma findall_group_absent (open close : char) (s : str) :
  ~ In open s -> forall skip, findall_group open close skip s = [].
Proof.
  induction s as [|c s IH]; intros H skip; [reflexivity|].
  cbn [findall_group].
  replace (N.eqb c open) with false
    by (symmetry; apply N.eqb_neq; intros ->; apply H; left; reflexivity).
  destruct skip; apply IH; intros K; apply H; right; exact K.
Qed.

Lemma AccentEntry_fields_inverse (e : AccentEntry) :
  AccentEntry_of_fields (fields_of_AccentEntry e) = Returned e.
Proof. destruct e. reflexivity. Qed.

(** X15: writing the nineteen fields of an entry with commas between them
    and reading the line back gives the entry again, whatever whitespace
    follows the line, provided no field holds a comma, an opening brace or an
    opening parenthesis, the first field does not begin with whitespace and
    the last does not end with it. *)
Theorem make_accent_entry_roundtrip (e : AccentEntry) (tail : str) :
  (forall f, In f (fields_of_AccentEntry e) ->
             forall c, In c f -> c <> ch "," /\ c <> ch "{" /\ c <> ch "(") ->
  (forall c, hd_error (NID e) = Some c -> isspace c = false) ->
  (forall c, hd_error (rev (accent e)) = Some c -> isspace c = false) ->
  Forall (fun c => isspace c = true) tail ->
  make_accent_entry (join (u ",") (fields_of_AccentEntry e) ++ tail) = Returned e.
Proof.
  intros Hf H1 H2 T. unfold make_accent_entry.
  change (u ",") with [ch ","].
  rewrite strip_line.
  - assert (NB : forall b, b = ch "{" \/ b = ch "(" ->
                           ~ In b (join [ch ","] (fields_of_AccentEntry e))).
    { intros b Hb K. apply in_join in K. destruct K as [->|(f & Hin & Hc)].
      - destruct Hb; discriminate.
      - destruct (Hf f Hin b Hc) as (_ & A & B). destruct Hb; contradiction. }
    unfold escape_sub_entries.
    rewrite !findall_group_absent by (apply NB; auto).
    cbn [app fold_left].
    rewrite split_on_join.
    + apply AccentEntry_fields_inverse.
    + discriminate.
    + apply Forall_forall. intros f Hin K. apply (proj1 (Hf f Hin _ K)). reflexivity.
  - intros c Hc. apply join_first in Hc. destruct Hc as [->|Hc]; [reflexivity|].
    apply H1. exact Hc.
  - intros c Hc. apply join_last in Hc. destruct Hc as [->|Hc]; [reflexivity|].
    apply H2. exact Hc.
  - exact T.
Qed.

Lemma make_accent_entry_roundtrip_witness :
  exists e,
    make_accent_entry sample_line = Returned e
    /\ make_accent_entry (join (u ",") (fields_of_AccentEntry e) ++ [NEWLINE]) = Returned e.
Proof.
  destruct (make_accent_entry sample_line) as [e|] eqn:E; [|vm_compute in E; discriminate].
  exists e. split; [reflexivity|].
  vm_compute in E. injection E as <-.
  apply make_accent_entry_roundtrip.
  - intros f Hf c Hc. cbn [fields_of_AccentEntry NID ID WAVname K_FLD ACT katakana_reading
      nhk kanjiexpr NHKexpr numberchars devoiced_pos nasalsoundpos majiri kaisi KWAV
      katakana_reading_alt akusentosuu bunshou accent] in Hf.
    repeat (destruct Hf as [<-|Hf];
            [repeat (destruct Hc as [<-|Hc]; [repeat split; discriminate|]); destruct Hc|]).
    destruct Hf.
  - intros c [= <-]. reflexivity.
  - intros c [= <-]. reflexivity.
  - repeat constructor.
Defined.

(** The line of a loadable row is read back as the row. *)
Lemma unpack_write_row (row : str * str * str) :
  loadable row ->
  unpack3 (split_on (ch "009") (strip (write_row row))) = Returned row.
Proof.
  destruct row as [[k a] h]. intros (Tk & Ta & Th & (x & Hx & Sx) & (y & Hy & Sy)).
  unfold write_row. cbn [fst snd].
  replace (k ++ TAB ++ a ++ TAB ++ h ++ [NEWLINE])
    with (join [ch "009"] [k; a; h] ++ [NEWLINE])
    by (cbn [join]; rewrite <- !app_assoc; reflexivity).
  rewrite strip_line.
  - rewrite split_on_join; [reflexivity | discriminate |].
    repeat constructor; assumption.
  - destruct k as [|x' k]; [discriminate|]. injection Hx as ->.
    intros c [= <-]. exact Sx.
  - intros c Hc.
    rewrite (join_last_part (ch "009") [k; a; h] y Hy) in Hc.
    injection Hc as <-. exact Sy.
  - repeat constructor.
Qed.

Lemma parse_rows_written (file_rows : list (str * str * str)) :
  Forall loadable file_rows ->
  parse_rows (map write_row file_rows) = Returned file_rows.
Proof.
  unfold parse_rows. induction 1 as [|row file_rows Hrow _ IH]; [reflexivity|].
  cbn [map mapM]. rewrite (unpack_write_row row Hrow). cbn [bind].
  rewrite IH. reflexivity.
Qed.

(** X16: a file written row by row is read back.  When no field of a row
    holds a TAB, the word begins and the html ends with a character that is
    not whitespace, the lines written for the rows parse to the same rows, in
    order, and [read_derivative] returns a dictionary in which the html of
    every row is found under the row's word and under its kana. *)
Theorem read_derivative_written (file_rows : list (str * str * str)) :
  Forall loadable file_rows ->
  parse_rows (map write_row file_rows) = Returned file_rows
  /\ exists d,
       read_derivative (map write_row file_rows) = Returned d
       /\ forall word kana html,
            In (word, kana, html) file_rows ->
            In html (dict_get_default d word [])
            /\ In html (dict_get_default d kana []).
Proof.
  intros H. pose proof (parse_rows_written file_rows H) as P.
  split; [exact P|].
  exists (register_all eqb_str (read_registrations file_rows) []).
  split; [apply read_loop_registers; exact P|].
  intros word kana html Hin.
  destruct (register_all_spec eqb_str eqb_str_eq (read_registrations file_rows)) as [_ Hg].
  assert (R : forall key, In (key, html) (read_registrations file_rows) ->
                          In html (dict_get_default
                                     (register_all eqb_str (read_registrations file_rows) [])
                                     key [])).
  { intros key K. rewrite Hg. apply (dedup_In eqb_str eqb_str_eq).
    unfold registered_under. apply in_map_iff. exists (key, html).
    split; [reflexivity|]. apply filter_In. split; [exact K | apply eqb_str_refl]. }
  split; apply R; unfold read_registrations; apply in_flat_map;
    exists (word, kana, html); (split; [exact Hin|]); cbn; auto.
Qed.

Lemma read_derivative_written_witness :
  parse_rows (map write_row sample_rows) = Returned sample_rows
  /\ exists d,
       read_derivative (map write_row sample_rows) = Returned d
       /\ forall word kana html,
            In (word, kana, html) sample_rows ->
            In html (dict_get_default d word [])
            /\ In html (dict_get_default d kana []).
Proof.
  apply read_derivative_written.
  repeat constructor;
    try (intros K; cbn in K; repeat (destruct K as [K|K]; [discriminate K|]); exact K);
    try (eexists; split; [reflexivity | reflexivity]).
Defined.

Lemma unpack3_outcome (s : str) :
  (occurrences (ch "009") s = 2%nat
   /\ exists r, unpack3 (split_on (ch "009") s) = Returned r)
  \/ (occurrences (ch "009") s <> 2%nat
      /\ unpack3 (split_on (ch "009") s) = Raised ValueError).
Proof.
  unfold split_on. pose proof (split_on_go_length (ch "009") s []) as L.
  destruct (split_on_go (ch "009") [] s) as [|a [|b [|c [|x l]]]]; cbn [length] in L.
  - discriminate.
  - right. split; [lia | reflexivity].
  - right. split; [lia | reflexivity].
  - left. split; [lia | eexists; reflexivity].
  - right. split; [lia | reflexivity].
Qed.

Lemma read_loop_outcome (lines : list str) :
  forall d,
    (Forall (fun line => occurrences (ch "009") (strip line) = 2%nat) lines
     /\ exists d', read_loop d lines = Returned d')
    \/ (Exists (fun line => occurrences (ch "009") (strip line) <> 2%nat) lines
        /\ read_loop d lines = Raised ValueError).
Proof.
  induction lines as [|line lines IH]; intros d.
  - left. split; [constructor | eexists; reflexivity].
  - cbn [read_loop].
    destruct (unpack3_outcome (strip line)) as [[O ([[w k] h] & U)]|[O U]]; rewrite U; cbn [bind].
    + destruct (IH (fold_left (fun d key => register eqb_str d key h) [w; k] d))
        as [[F (d' & R)]|[E R]].
      * left. split; [constructor; assumption | exists d'; exact R].
      * right. split; [apply Exists_cons_tl; exact E | exact R].
    + right. split; [apply Exists_cons_hd; exact O | reflexivity].
Qed.

(** X17: [read_derivative] either returns a dictionary, and then every line
    holds exactly two TABs once stripped, or it raises [ValueError], and then
    some line does not: the unpacking of the three fields is its only
    failure. *)
Theorem read_derivative_outcome (lines : list str) :
  (Forall (fun line => occurrences (ch "009") (strip line) = 2%nat) lines
   /\ exists d, read_derivative lines = Returned d)
  \/ (Exists (fun line => occurrences (ch "009") (strip line) <> 2%nat) lines
      /\ read_derivative lines = Raised ValueError).
Proof. apply read_loop_outcome. Qed.

Lemma read_loop_empty_html (key kana : str) (lines : list str) :
  ~ In (ch "009") key -> ~ In (ch "009") kana ->
  In (write_row (key, kana, [])) lines ->
  read_derivative lines = Raised ValueError.
Proof.
  intros Hk Ha Hin.
  destruct (read_loop_outcome lines []) as [[F _]|[_ R]]; [|exact R].
  exfalso. rewrite Forall_forall in F. specialize (F _ Hin).
  unfold write_row in F. cbn [fst snd app] in F.
  replace (key ++ TAB ++ kana ++ TAB ++ [NEWLINE])
    with (((key ++ TAB ++ kana) ++ [ch "009"]) ++ [NEWLINE]) in F
    by (unfold TAB; rewrite <- !app_assoc; reflexivity).
  rewrite !strip_snoc_space in F by reflexivity.
  pose proof (occurrences_strip (ch "009") (key ++ TAB ++ kana)) as L.
  rewrite !occurrences_app, (occurrences_none _ key Hk), (occurrences_none _ kana Ha) in L.
  change (occurrences (ch "009") TAB) with 1%nat in L.
  unfold TAB in *. lia.
Qed.

(** X18: a row written with an empty html cannot be read back.  The line ends
    with a TAB and a newline, both removed by [strip], so only two fields are
    left and [read_derivative] raises [ValueError] on any file that holds
    such a line. *)
Theorem read_derivative_empty_html (key kana : str) (lines : list str) :
  ~ In (ch "009") key -> ~ In (ch "009") kana ->
  In (write_row (key, kana, [])) lines ->
  read_derivative lines = Raised ValueError.
Proof. apply read_loop_empty_html. Qed.

Lemma read_derivative_empty_html_witness :
  read_derivative (map write_row sample_rows ++ [write_row (u "アオ", u "アオ", [])])
  = Raised ValueError.
Proof.
  apply (read_derivative_empty_html (u "アオ") (u "アオ")).
  - intros K. cbn in K. repeat (destruct K as [K|K]; [discriminate K|]). exact K.
  - intros K. cbn in K. repeat (destruct K as [K|K]; [discriminate K|]). exact K.
  - apply in_or_app. right. left. reflexivity.
Defined.

(** * Further properties of [strip_non_jp_furigana] *)

Lemma non_jp_group_best (r : str) :
  forall k b, non_jp_group k (Some b) r <> None.
Proof.
  induction r as [|c r IH]; intros k b; cbn [non_jp_group]; [discriminate|].
  destruct (is_kana c); [discriminate|].
  destruct (N.eqb c (ch "]") && negb (Nat.eqb k 0)); apply IH.
Qed.

Lemma non_jp_group_nonkana (r : str) :
  forall k best n,
    non_jp_group k best r = Some n ->
    best = Some n \/ (filter is_kana (firstn (n - k) r) = [] /\ (k < n)%nat).
Proof.
  induction r as [|c r IH]; intros k best n H; cbn [non_jp_group] in H; [left; exact H|].
  destruct (is_kana c) eqn:K; [left; exact H|].
  apply IH in H. destruct H as [H|[H1 H2]].
  - destruct (N.eqb c (ch "]") && negb (Nat.eqb k 0)); [|left; exact H].
    injection H as <-. right. split; [|lia].
    replace (S k - k)%nat with 1%nat by lia. cbn [firstn filter]. rewrite K. reflexivity.
  - right. split; [|lia].
    replace (n - k)%nat with (S (n - S k)) by lia. cbn [firstn filter]. rewrite K. exact H1.
Qed.

Lemma strip_go_kana (s : str) :
  forall skip,
    filter is_kana (firstn skip s) = [] ->
    filter is_kana (strip_go skip s) = filter is_kana s.
Proof.
  induction s as [|c s IH]; intros skip H; [destruct skip; reflexivity|].
  destruct skip as [|k].
  - cbn [strip_go]. destruct (N.eqb c (ch "[")) eqn:E.
    + apply N.eqb_eq in E. subst c.
      destruct (non_jp_group 0 None s) as [n|] eqn:G.
      * apply non_jp_group_nonkana in G. destruct G as [G|[G _]]; [discriminate|].
        rewrite Nat.sub_0_r in G. cbn [filter].
        change (is_kana (ch "[")) with false. cbv iota. apply IH. exact G.
      * cbn [filter]. rewrite IH by reflexivity. reflexivity.
    + cbn [filter]. rewrite IH by reflexivity. reflexivity.
  - cbn [firstn filter] in H. destruct (is_kana c) eqn:K; [discriminate|].
    cbn [strip_go filter]. rewrite K. apply IH. exact H.
Qed.

(** X19: [strip_non_jp_furigana] never removes a kana: the kana of the
    result are the kana of the text, in the same order. *)
Theorem strip_non_jp_furigana_keeps_kana (expr : str) :
  filter is_kana (strip_non_jp_furigana expr) = filter is_kana expr.
Proof. unfold strip_non_jp_furigana. apply strip_go_kana. reflexivity. Qed.

Lemma non_jp_group_no_close (r : str) :
  forall k k',
    non_jp_group (S k) None r = None -> non_jp_group k' None r = None.
Proof.
  induction r as [|c r IH]; intros k k' H; cbn [non_jp_group] in *; [reflexivity|].
  destruct (is_kana c); [reflexivity|].
  destruct (N.eqb c (ch "]")); cbn [andb negb Nat.eqb] in H.
  - exfalso. exact (non_jp_group_best _ _ _ H).
  - cbn [andb]. eapply IH. exact H.
Qed.

Lemma non_jp_group_strip (r : str) :
  forall k,
    non_jp_group k None r = None -> non_jp_group k None (strip_go 0 r) = None.
Proof.
  induction r as [|c r IH]; intros k H; [reflexivity|].
  cbn [non_jp_group] in H. destruct (is_kana c) eqn:K.
  - cbn [strip_go]. destruct (N.eqb c (ch "[")) eqn:E.
    + apply N.eqb_eq in E. subst c. vm_compute in K. discriminate.
    + cbn [non_jp_group]. rewrite K. reflexivity.
  - destruct (N.eqb c (ch "]") && negb (Nat.eqb k 0)) eqn:B;
      [exfalso; exact (non_jp_group_best _ _ _ H)|].
    cbn [strip_go]. destruct (N.eqb c (ch "[")) eqn:E.
    + rewrite (non_jp_group_no_close r k 0 H).
      cbn [non_jp_group]. rewrite K, B. apply IH. exact H.
    + cbn [non_jp_group]. rewrite K, B. apply IH. exact H.
Qed.

Lemma strip_go_clean (s : str) :
  forall skip, strip_go 0 (strip_go skip s) = strip_go skip s.
Proof.
  induction s as [|c s IH]; intros skip; [destruct skip; reflexivity|].
  destruct skip as [|k].
  - cbn [strip_go]. destruct (N.eqb c (ch "[")) eqn:E.
    + destruct (non_jp_group 0 None s) as [n|] eqn:G.
      * apply IH.
      * cbn [strip_go]. rewrite E, (non_jp_group_strip s 0 G), IH. reflexivity.
    + cbn [strip_go]. rewrite E, IH. reflexivity.
  - cbn [strip_go]. apply IH.
Qed.

(** X20: stripping is idempotent: removing the non-kana groups never brings
    a new one into being, so a second pass changes nothing. *)
Theorem strip_non_jp_furigana_idempotent (expr : str) :
  strip_non_jp_furigana (strip_non_jp_furigana expr) = strip_non_jp_furigana expr.
Proof. unfold strip_non_jp_furigana. apply strip_go_clean. Qed.

Lemma strip_go_kana_prefix (pre rest : str) :
  kana_furigana_only pre = true ->
  strip_go 0 (pre ++ rest) = pre ++ strip_go 0 rest.
Proof.
  induction pre as [|c pre IH]; intros H; [reflexivity|].
  cbn [kana_furigana_only] in H. apply andb_prop in H. destruct H as [H1 H2].
  cbn [app strip_go]. destruct (N.eqb c (ch "[")).
  - destruct pre as [|k pre]; [discriminate|].
    cbn [app non_jp_group]. rewrite H1.
    change (k :: pre ++ rest) with ((k :: pre) ++ rest). rewrite IH by exact H2.
    reflexivity.
  - rewrite IH by exact H2. reflexivity.
Qed.

(** X21: furigana written in kana is kept.  A text in which every opening
    bracket is directly followed by a kana comes back unchanged. *)
Theorem strip_non_jp_furigana_kana_kept (expr : str) :
  kana_furigana_only expr = true ->
  strip_non_jp_furigana expr = expr.
Proof.
  intros H. unfold strip_non_jp_furigana.
  rewrite <- (app_nil_r expr) at 1. rewrite strip_go_kana_prefix by exact H.
  cbn [strip_go]. apply app_nil_r.
Qed.

Lemma strip_non_jp_furigana_kana_kept_witness :
  strip_non_jp_furigana (u "悪[わる]い") = u "悪[わる]い".
Proof.
  apply strip_non_jp_furigana_kana_kept. vm_compute. reflexivity.
Defined.

Lemma non_jp_group_run (g rest : str) :
  Forall (fun c => is_kana c = false /\ c <> ch "]") g ->
  forall k best,
    non_jp_group k best (g ++ rest) = non_jp_group (k + length g) best rest.
Proof.
  induction 1 as [|c g [K C] _ IH]; intros k best.
  - cbn [app length]. rewrite Nat.add_0_r. reflexivity.
  - cbn [app non_jp_group length]. rewrite K.
    replace (N.eqb c (ch "]")) with false by (symmetry; apply N.eqb_neq; exact C).
    cbn [andb]. rewrite IH. f_equal. lia.
Qed.

Lemma strip_go_skip (a b : str) :
  strip_go (length a) (a ++ b) = strip_go 0 b.
Proof. induction a as [|c a IH]; [reflexivity|]. cbn [length app strip_go]. exact IH. Qed.

Lemma strip_go_group (g post : str) :
  g <> [] ->
  Forall (fun c => is_kana c = false /\ c <> ch "]") g ->
  (forall c, hd_error post = Some c -> is_kana c = true) ->
  strip_go 0 (ch "[" :: g ++ ch "]" :: post) = strip_go 0 post.
Proof.
  intros Hg F Hp. cbn [strip_go].
  change (N.eqb (ch "[") (ch "[")) with true. cbv iota.
  rewrite (non_jp_group_run g (ch "]" :: post) F 0 None).
  cbn [non_jp_group Nat.add].
  change (is_kana (ch "]")) with false. cbv iota.
  change (N.eqb (ch "]") (ch "]")) with true.
  assert (L : Nat.eqb (length g) 0 = false)
    by (destruct g; [contradiction | reflexivity]).
  rewrite L. cbn [andb negb].
  assert (G : non_jp_group (S (length g)) (Some (S (length g))) post
              = Some (S (length g))).
  { destruct post as [|c post]; [reflexivity|].
    cbn [non_jp_group]. rewrite (Hp c eq_refl). reflexivity. }
  rewrite G.
  replace (g ++ ch "]" :: post) with ((g ++ [ch "]"]) ++ post)
    by (rewrite <- app_assoc; reflexivity).
  replace (S (length g)) with (length (g ++ [ch "]"]))
    by (rewrite length_app; cbn [length]; lia).
  apply strip_go_skip.
Qed.

(** X22: a bracketed group without kana is removed.  After a text whose own
    brackets all open on a kana, a non-empty group that holds neither a kana
    nor a closing bracket disappears with its brackets when the rest is empty
    or begins with a kana; the rest is stripped in turn. *)
Theorem strip_non_jp_furigana_group (pre g post : str) :
  kana_furigana_only pre = true ->
  g <> [] ->
  Forall (fun c => is_kana c = false /\ c <> ch "]") g ->
  (forall c, hd_error post = Some c -> is_kana c = true) ->
  strip_non_jp_furigana (annotate pre g post) = pre ++ strip_non_jp_furigana post.
Proof.
  intros Hpre Hg F Hp. unfold strip_non_jp_furigana, annotate.
  rewrite strip_go_kana_prefix by exact Hpre. f_equal.
  apply strip_go_group; assumption.
Qed.

Lemma strip_non_jp_furigana_group_witness :
  strip_non_jp_furigana (annotate (u "悪[わる]") (u "1223") (u "い[2]"))
  = u "悪[わる]" ++ strip_non_jp_furigana (u "い[2]").
Proof.
  apply strip_non_jp_furigana_group.
  - vm_compute. reflexivity.
  - discriminate.
  - repeat constructor; discriminate.
  - intros c [= <-]. vm_compute. reflexivity.
Defined.

(** * Repeated lines of the corpus *)

Lemma dict_set_same {V} (d : dict V) (k : str) (v : V) :
  dict_get d k = Some v -> dict_set d k v = d.
Proof.
  induction d as [|[k' v'] d IH]; [discriminate|].
  cbn [dict_get dict_set]. destruct (eqb_str k' k).
  - intros [= ->]. reflexivity.
  - intros H. rewrite IH by exact H. reflexivity.
Qed.

Lemma register_present {V} (eqb : V -> V -> bool) (d : dict (list V))
  (k : str) (v : V) :
  existsb (eqb v) (dict_get_default d k []) = true ->
  register eqb d k v = d.
Proof.
  unfold register, dict_get_default.
  destruct (dict_get d k) as [l|] eqn:G; [|discriminate].
  intros ->. apply dict_set_same. exact G.
Qed.

Lemma mapM_app {A B} (f : A -> result B) (a b : list A) :
  mapM f (a ++ b)
  = bind (mapM f a) (fun xs => bind (mapM f b) (fun ys => Returned (xs ++ ys))).
Proof.
  induction a as [|x a IH].
  - cbn [app mapM bind]. destruct (mapM f b); reflexivity.
  - cbn [app mapM]. destruct (f x) as [y|e]; cbn [bind]; [|reflexivity].
    rewrite IH. destruct (mapM f a) as [xs|e]; cbn [bind]; [|reflexivity].
    destruct (mapM f b); reflexivity.
Qed.

Lemma mapM_In {A B} (f : A -> result B) (l : list A) :
  forall ys x,
    mapM f l = Returned ys -> In x l ->
    exists y, f x = Returned y /\ In (x, y) (combine l ys).
Proof.
  induction l as [|a l IH]; intros ys x M Hin; [destruct Hin|].
  cbn [mapM] in M. destruct (f a) as [y|] eqn:F; cbn [bind] in M; [|discriminate].
  destruct (mapM f l) as [ys'|] eqn:M'; cbn [bind] in M; [|discriminate].
  injection M as <-. destruct Hin as [<-|Hin].
  - exists y. split; [exact F | left; reflexivity].
  - destruct (IH ys' x eq_refl Hin) as (y' & Fy & Hy).
    exists y'. split; [exact Fy | right; exact Hy].
Qed.

Lemma mapM_subset {A B} (f : A -> result B) (a b : list A) (xs : list B) :
  mapM f a = Returned xs ->
  (forall x, In x b -> In x a) ->
  exists ys, mapM f b = Returned ys /\ forall y, In y ys -> In y xs.
Proof.
  intros M. induction b as [|x b IH]; intros Hsub.
  - exists []. split; [reflexivity | intros y []].
  - destruct (mapM_In f a xs x M (Hsub x (or_introl eq_refl))) as (y & Fy & Hy).
    destruct IH as (ys & Mb & Hys); [intros z Hz; apply Hsub; right; exact Hz|].
    exists (y :: ys). split.
    + cbn [mapM]. rewrite Fy, Mb. reflexivity.
    + intros z [<-|Hz]; [|apply Hys; exact Hz].
      apply in_combine_r in Hy. exact Hy.
Qed.

Section Repeated.

Variable int : str -> result Z.

Lemma build_loop_app (entries extra : list AccentEntry) :
  forall d,
    build_loop int d (entries ++ extra)
    = bind (build_loop int d entries) (fun d' => build_loop int d' extra).
Proof.
  induction entries as [|e entries IH]; intros d; [reflexivity|].
  cbn [app build_loop]. destruct (format_entry int e); cbn [bind]; [|reflexivity].
  apply IH.
Qed.

Lemma build_loop_known (entries : list AccentEntry) (htmls : list str)
  (extra : list AccentEntry) :
  mapM (format_entry int) entries = Returned htmls ->
  (forall e, In e extra -> In e entries) ->
  build_loop int (register_all eqb_pair (build_registrations entries htmls) []) extra
  = Returned (register_all eqb_pair (build_registrations entries htmls) []).
Proof.
  intros M. induction extra as [|e extra IH]; intros Hsub; [reflexivity|].
  destruct (mapM_In _ _ _ e M (Hsub e (or_introl eq_refl))) as (h & F & Hin).
  cbn [build_loop]. rewrite F. cbn [bind fold_left].
  destruct (register_all_spec eqb_pair eqb_pair_eq (build_registrations entries htmls))
    as [_ Hg].
  assert (R : forall key,
             In (key, (katakana_reading e, h)) (build_registrations entries htmls) ->
             register eqb_pair
               (register_all eqb_pair (build_registrations entries htmls) [])
               key (katakana_reading e, h)
             = register_all eqb_pair (build_registrations entries htmls) []).
  { intros key K. apply register_present. rewrite Hg.
    apply (existsb_eqb_In eqb_pair eqb_pair_eq).
    apply (dedup_In eqb_pair eqb_pair_eq). unfold registered_under.
    apply in_map_iff. exists (key, (katakana_reading e, h)).
    split; [reflexivity|]. apply filter_In. split; [exact K | apply eqb_str_refl]. }
  rewrite !R.
  - apply IH. intros z Hz. apply Hsub. right. exact Hz.
  - unfold build_registrations. apply in_flat_map. exists (e, h).
    split; [exact Hin | right; left; reflexivity].
  - unfold build_registrations. apply in_flat_map. exists (e, h).
    split; [exact Hin | left; reflexivity].
Qed.

Lemma build_dict_repeated (corpus extra : list str) :
  (forall line, In line extra -> In line corpus) ->
  build_dict int (corpus ++ extra) = build_dict int corpus.
Proof.
  intros Hsub. unfold build_dict. rewrite mapM_app.
  destruct (mapM make_accent_entry corpus) as [entries|err] eqn:M; cbn [bind];
    [|reflexivity].
  destruct (mapM_subset _ _ _ _ M Hsub) as (more & Mx & Hmore).
  rewrite Mx. cbn [bind]. rewrite build_loop_app.
  destruct (build_loop int [] entries) as [d|err] eqn:B; cbn [bind]; [|reflexivity].
  assert (D : build_dict int corpus = Returned d)
    by (unfold build_dict; rewrite M; exact B).
  destruct (build_dict_returned int corpus d D) as (entries' & htmls & M' & F).
  rewrite M in M'. injection M' as <-.
  rewrite (build_loop_registers int entries htmls [] F) in B. injection B as <-.
  apply build_loop_known; assumption.
Qed.

(** X23: lines that repeat lines of the corpus add nothing.  Appending to
    the corpus lines that it already holds leaves the written file, or the
    exception raised, the same: a value is appended to a key only when it is
    not yet there. *)
Theorem build_database_repeated (corpus extra : list str) :
  (forall line, In line extra -> In line corpus) ->
  build_database int (corpus ++ extra) = build_database int corpus.
Proof.
  intros Hsub. unfold build_database. rewrite build_dict_repeated by exact Hsub.
  reflexivity.
Qed.

End Repeated.

Lemma build_database_repeated_witness :
  build_database int_str (sample_corpus ++ [sample_line ++ [NEWLINE]])
  = build_database int_str sample_corpus.
Proof.
  apply build_database_repeated.
  intros line [<-|[]]. left. reflexivity.
Defined.
